(** * Stereographic re-projection (main.py): a shallow embedding and its
      verified properties.

    Numbers.  The program computes in IEEE binary64 ([np.float64]); this
    development reads every float as a real number of [R] and every
    arithmetic operation as the exact one, so it verifies the formulas of
    the program and says nothing of rounding error.  Python integers are
    [Z].  The three functions of the pipeline are compiled by numba in
    nopython mode with its default (Python) error model: a float division
    by zero raises [ZeroDivisionError], and so does [%] by zero.  Nothing in
    compiled code raises on a [nan]: [np.arccos] outside [-1, 1] returns
    [nan], arithmetic propagates it, and [round] turns it into an integer
    without a check.  Which integer is left to the target; it is the
    parameter [nan_to_int] of the development. *)

From Stdlib Require Import Reals Lra Lia ZArith List Bool FinFun RNsatz.
Import ListNotations.

Local Open Scope R_scope.

(** ** Errors and the result monad *)

Inductive error : Type :=
| ZeroDivisionError
| ValueError
| IndexError.

Inductive result (A : Type) : Type :=
| Ok (a : A)
| Err (e : error).

Arguments Ok {A} a.
Arguments Err {A} e.

Definition bind {A B : Type} (m : result A) (f : A -> result B) : result B :=
  match m with
  | Ok a => f a
  | Err e => Err e
  end.

Notation "'let*' x ':=' m 'in' k" := (bind m (fun x => k))
  (at level 10, x pattern, m at level 100, k at level 200).

(** ** Primitive operations of the host language *)

(** Float division [a / b] under numba's Python error model. *)
Definition fdiv (a b : R) : result R :=
  if Req_dec_T b 0 then Err ZeroDivisionError else Ok (a / b).

(** Integer remainder [a % b]: the sign of the result follows the divisor,
    as [Z.modulo] does. *)
Definition imod (a b : Z) : result Z :=
  if Z.eqb b 0 then Err ZeroDivisionError else Ok (Z.modulo a b).

(** A float that may be [nan]: a real number, or [NaN]. *)
Inductive float : Type :=
| Fin (v : R)
| NaN.

(** [x / c] and [x * c] for a float [x] and a number [c]: [nan] stays
    [nan]. *)
Definition fl_div (x : float) (c : R) : float :=
  match x with
  | Fin v => Fin (v / c)
  | NaN => NaN
  end.

Definition fl_mul (x : float) (c : R) : float :=
  match x with
  | Fin v => Fin (v * c)
  | NaN => NaN
  end.

(** [np.arccos]: the inverse cosine on [-1, 1], and [nan] elsewhere. *)
Definition arccos (t : R) : float :=
  if Rle_dec (-1) t then
    if Rle_dec t 1 then Fin (acos t) else NaN
  else NaN.

(** [np.arctan2 y x] on real arguments: the angle of the point (x, y) in
    (-PI, PI], and 0 at the origin. *)
Definition arctan2 (y x : R) : R :=
  if Rlt_dec 0 x then atan (y / x)
  else if Rlt_dec x 0 then
    (if Rle_dec 0 y then atan (y / x) + PI else atan (y / x) - PI)
  else
    (if Rlt_dec 0 y then PI / 2
     else if Rlt_dec y 0 then - (PI / 2)
     else 0).

(** [round] of a float to an integer: to the nearest, a tie going to the
    even neighbour. *)
Definition round (t : R) : Z :=
  let f := Int_part t in
  let d := t - IZR f in
  if Rlt_dec d (1 / 2) then f
  else if Rlt_dec (1 / 2) d then (f + 1)%Z
  else if Z.even f then f else (f + 1)%Z.

(** ** Data model *)

(** A [np.ndarray] of shape (3,). *)
Record Point3D : Type := mkPoint { px : R; py : R; pz : R }.

(** A [np.ndarray] of shape (3, 3), by rows. *)
Record Mat3 : Type := mkMat { row0 : Point3D; row1 : Point3D; row2 : Point3D }.

(** An RGB triple of [np.uint8]. *)
Record RGB : Type := mkRGB { red : Z; green : Z; blue : Z }.

(** An image buffer of shape (h, w, 3): a list of rows. *)
Definition Image : Type := list (list RGB).

(** The module-level parameters read by [projection]. *)
Record Config : Type := mkConfig {
  offset_hor : R;
  offset_ver : R;
  scale : R;
  alpha : R;
  beta : R;
  gamma : R;
  prevent_scaling : bool;
  w_proj0 : Z;
  h_proj0 : Z
}.

(** The integer that the conversion instructions of x86-64 give for [nan]:
    the value of [nan_to_int] the properties are instantiated with at
    concrete inputs. *)
Definition int64_min : Z := (- 2 ^ 63)%Z.

(** ** The pipeline *)

Section Compiled.

(** The integer the compiled [round] yields on [nan]. *)
Variable nan_to_int : Z.

(** [round] as compiled: round to nearest even, then an unchecked
    conversion to a 64-bit integer. *)
Definition round_float (x : float) : Z :=
  match x with
  | Fin v => round v
  | NaN => nan_to_int
  end.

Definition get_point_on_sphere (point : Point3D) (r : R) : result Point3D :=
  let x := px point in
  let y := py point in
  let* k := fdiv (2 * r ^ 2) (x ^ 2 + y ^ 2 + r ^ 2) in
  Ok (mkPoint (k * x) (k * y) ((k - 1) * r)).

Definition dot (u v : Point3D) : R :=
  px u * px v + py u * py v + pz u * pz v.

Definition axis_rotate (point : Point3D) (rot_mat : Mat3) : Point3D :=
  mkPoint (dot (row0 rot_mat) point)
          (dot (row1 rot_mat) point)
          (dot (row2 rot_mat) point).

Definition get_pix_on_img (point : Point3D) (r : R) (h_img w_img : Z)
  : result (Z * Z) :=
  let x := px point in
  let y := py point in
  let z := pz point in
  let z := if Rlt_dec r z then r else z in
  let* q := fdiv z r in
  let row := fl_div (arccos q) PI in
  let col := arctan2 y x / 2 / PI + 1 / 2 in
  let* row := imod (round_float (fl_mul row (IZR h_img))) h_img in
  let* col := imod (round (col * IZR w_img)) w_img in
  Ok (row, col).

(** The rotation matrix built in the main block. *)
Definition rot_mat (alpha beta gamma : R) : Mat3 :=
  mkMat
    (mkPoint (cos gamma * cos beta)
             (cos gamma * sin beta * sin alpha - sin gamma * cos alpha)
             (cos gamma * sin beta * cos alpha + sin gamma * sin alpha))
    (mkPoint (sin gamma * cos beta)
             (sin gamma * sin beta * sin alpha + cos gamma * cos alpha)
             (sin gamma * sin beta * cos alpha - cos gamma * sin alpha))
    (mkPoint (- sin beta)
             (cos beta * sin alpha)
             (cos beta * cos alpha)).

(** [projection]: the globals [offset_ver], [offset_hor] and [rot_mat] it
    reads are passed in.  The plane point is stored as float32 in the
    source, which the real model does not distinguish. *)
Definition projection (offset_ver offset_hor : R) (M : Mat3)
    (pix_proj : Z * Z) (r : R) (h_img w_img h_proj w_proj : Z)
  : result (Z * Z) :=
  let '(row, col) := pix_proj in
  let x := IZR row + (offset_ver - 1 / 2) * IZR h_proj in
  let y := IZR col + (offset_hor - 1 / 2) * IZR w_proj in
  let z := 0 in
  let Q := mkPoint x y z in
  let* P := get_point_on_sphere Q r in
  let P := axis_rotate P M in
  get_pix_on_img P r h_img w_img.

(** ** The sampling loop *)

(** [np.ndindex (h, w)]: the index pairs in row-major order. *)
Definition ndindex (h w : nat) : list (Z * Z) :=
  flat_map (fun i => map (fun j => (Z.of_nat i, Z.of_nat j)) (seq 0 w))
           (seq 0 h).

(** numpy's index rule along an axis of length [n]: a negative index counts
    from the end, anything outside [-n, n) raises [IndexError]. *)
Definition norm_index (i : Z) (n : nat) : result nat :=
  if (0 <=? i)%Z && (i <? Z.of_nat n)%Z then Ok (Z.to_nat i)
  else if (- Z.of_nat n <=? i)%Z && (i <? 0)%Z
       then Ok (Z.to_nat (i + Z.of_nat n))
       else Err IndexError.

Fixpoint list_set {A : Type} (l : list A) (n : nat) (v : A) : list A :=
  match l, n with
  | [], _ => []
  | _ :: t, O => v :: t
  | a :: t, S n' => a :: list_set t n' v
  end.

(** [arr[pix]] for a pair [pix]. *)
Definition img_get (arr : Image) (pix : Z * Z) : result RGB :=
  let '(row, col) := pix in
  let* i := norm_index row (length arr) in
  match nth_error arr i with
  | None => Err IndexError
  | Some line =>
      let* j := norm_index col (length line) in
      match nth_error line j with
      | None => Err IndexError
      | Some c => Ok c
      end
  end.

(** [arr[pix] = c] for a pair [pix]. *)
Definition img_set (arr : Image) (pix : Z * Z) (c : RGB) : result Image :=
  let '(row, col) := pix in
  let* i := norm_index row (length arr) in
  match nth_error arr i with
  | None => Err IndexError
  | Some line =>
      let* j := norm_index col (length line) in
      Ok (list_set arr i (list_set line j c))
  end.

(** [np.zeros((h, w, 3), dtype=np.uint8)]. *)
Definition zeros (h w : Z) : result Image :=
  if (h <? 0)%Z || (w <? 0)%Z then Err ValueError
  else Ok (repeat (repeat (mkRGB 0 0 0) (Z.to_nat w)) (Z.to_nat h)).

(** [arr.shape[:2]]. *)
Definition shape (arr : Image) : nat * nat :=
  (length arr, length (hd [] arr)).

(** Every row of a buffer of shape (h, w, 3) has [w] pixels. *)
Definition rectangular (arr : Image) (h w : nat) : Prop :=
  length arr = h /\ Forall (fun line => length line = w) arr.

Section Sampler.

Variables (offset_ver offset_hor : R) (M : Mat3).
Variables (arr_img : Image) (r : R) (h_img w_img h_proj w_proj : Z).

(** One turn of the [for] loop. *)
Definition sample_step (arr_proj : Image) (pix_proj : Z * Z)
  : result Image :=
  let* pix_img :=
    projection offset_ver offset_hor M pix_proj r h_img w_img h_proj w_proj in
  let* c := img_get arr_img pix_img in
  img_set arr_proj pix_proj c.

Fixpoint sample_loop (pixels : list (Z * Z)) (arr_proj : Image)
  : result Image :=
  match pixels with
  | [] => Ok arr_proj
  | pix_proj :: rest =>
      let* arr_proj' := sample_step arr_proj pix_proj in
      sample_loop rest arr_proj'
  end.

End Sampler.

(** The main block, from the decoded source buffer to the buffer handed to
    the encoder.  [arr_proj.shape[:2]] is (h_proj, w_proj), the shape it was
    allocated with. *)
Definition run (cfg : Config) (arr_img : Image) : result Image :=
  let h_img := Z.of_nat (fst (shape arr_img)) in
  let w_img := Z.of_nat (snd (shape arr_img)) in
  let h_proj := if prevent_scaling cfg then h_img else h_proj0 cfg in
  let w_proj := if prevent_scaling cfg then w_img else w_proj0 cfg in
  let* arr_proj := zeros h_proj w_proj in
  let r := IZR (Z.min h_proj w_proj) / 10 * scale cfg in
  let M := rot_mat (alpha cfg) (beta cfg) (gamma cfg) in
  sample_loop (offset_ver cfg) (offset_hor cfg) M arr_img r
              h_img w_img h_proj w_proj
              (ndindex (Z.to_nat h_proj) (Z.to_nat w_proj))
              arr_proj.

(** The parameter block at the head of main.py. *)
Definition default_config : Config :=
  mkConfig 0 (4 / 10) (15 / 10)
           (0 * PI / 180) (-5 * PI / 180) (0 * PI / 180)
           true 400 300.

(** A source buffer of shape (2, 2, 3). *)
Definition tiny_img : Image :=
  [[mkRGB 255 0 0; mkRGB 0 255 0]; [mkRGB 0 0 255; mkRGB 255 255 255]].

(** ** Reference notions the properties are stated with *)

Definition sq_norm (p : Point3D) : R := dot p p.

Definition norm (p : Point3D) : R := sqrt (sq_norm p).

Definition dist (p q : Point3D) : R :=
  norm (mkPoint (px p - px q) (py p - py q) (pz p - pz q)).

Definition col0 (m : Mat3) : Point3D :=
  mkPoint (px (row0 m)) (px (row1 m)) (px (row2 m)).
Definition col1 (m : Mat3) : Point3D :=
  mkPoint (py (row0 m)) (py (row1 m)) (py (row2 m)).
Definition col2 (m : Mat3) : Point3D :=
  mkPoint (pz (row0 m)) (pz (row1 m)) (pz (row2 m)).

Definition transpose (m : Mat3) : Mat3 :=
  mkMat (col0 m) (col1 m) (col2 m).

Definition mat_mul (a b : Mat3) : Mat3 :=
  let line u := mkPoint (dot u (col0 b)) (dot u (col1 b)) (dot u (col2 b)) in
  mkMat (line (row0 a)) (line (row1 a)) (line (row2 a)).

Definition identity : Mat3 :=
  mkMat (mkPoint 1 0 0) (mkPoint 0 1 0) (mkPoint 0 0 1).

(** The standard rotations about one axis. *)
Definition Rx (a : R) : Mat3 :=
  mkMat (mkPoint 1 0 0)
        (mkPoint 0 (cos a) (- sin a))
        (mkPoint 0 (sin a) (cos a)).

Definition Ry (b : R) : Mat3 :=
  mkMat (mkPoint (cos b) 0 (sin b))
        (mkPoint 0 1 0)
        (mkPoint (- sin b) 0 (cos b)).

Definition Rz (g : R) : Mat3 :=
  mkMat (mkPoint (cos g) (- sin g) 0)
        (mkPoint (sin g) (cos g) 0)
        (mkPoint 0 0 1).

(** The coefficient of the sphere intersection, as the specification
    writes it. *)
Definition k_coeff (x y r : R) : R := 2 * r ^ 2 / (x ^ 2 + y ^ 2 + r ^ 2).

(** The mapper as the specification words it: clamp z to at most r, then
    row = round(arccos(z/r)/PI * h_img) mod h_img and
    col = round((atan2(y, x)/(2 PI) + 0.5) * w_img) mod w_img. *)
Definition spec_row (z r : R) (h_img : Z) : Z :=
  Z.modulo
    (round_float (fl_mul (fl_div (arccos (Rmin z r / r)) PI) (IZR h_img)))
    h_img.

Definition spec_col (x y : R) (w_img : Z) : Z :=
  Z.modulo (round ((arctan2 y x / (2 * PI) + 1 / 2) * IZR w_img)) w_img.

Definition spec_mapper (p : Point3D) (r : R) (h_img w_img : Z)
  : result (Z * Z) :=
  Ok (spec_row (pz p) r h_img, spec_col (px p) (py p) w_img).

Definition in_bounds (pix : Z * Z) (h w : Z) : Prop :=
  (0 <= fst pix < h)%Z /\ (0 <= snd pix < w)%Z.

(** Steps 2 to 4 of the pipeline on an arbitrary plane point. *)
Definition pipeline_from_plane (M : Mat3) (x y r : R) (h_img w_img : Z)
  : result (Z * Z) :=
  let* P := get_point_on_sphere (mkPoint x y 0) r in
  get_pix_on_img (axis_rotate P M) r h_img w_img.

(** The output dimensions and the radius the main block settles on. *)
Definition out_height (cfg : Config) (h_img : Z) : Z :=
  if prevent_scaling cfg then h_img else h_proj0 cfg.

Definition out_width (cfg : Config) (w_img : Z) : Z :=
  if prevent_scaling cfg then w_img else w_proj0 cfg.

Definition radius (cfg : Config) (h_proj w_proj : Z) : R :=
  IZR (Z.min h_proj w_proj) / 10 * scale cfg.

(** The determinant of a 3x3 matrix, expanded along its first row. *)
Definition det (m : Mat3) : R :=
  px (row0 m) * (py (row1 m) * pz (row2 m) - pz (row1 m) * py (row2 m))
  - py (row0 m) * (px (row1 m) * pz (row2 m) - pz (row1 m) * px (row2 m))
  + pz (row0 m) * (px (row1 m) * py (row2 m) - py (row1 m) * px (row2 m)).

(** The [for] loop together with its [progress.update(task, advance=1)]:
    [completed] is what the progress task has been advanced by. *)
Fixpoint sample_loop_progress (offset_ver offset_hor : R) (M : Mat3)
    (arr_img : Image) (r : R) (h_img w_img h_proj w_proj : Z)
    (pixels : list (Z * Z)) (arr_proj : Image) (completed : nat)
  : result (Image * nat) :=
  match pixels with
  | [] => Ok (arr_proj, completed)
  | pix_proj :: rest =>
      let* arr_proj' :=
        sample_step offset_ver offset_hor M arr_img r
                    h_img w_img h_proj w_proj arr_proj pix_proj in
      sample_loop_progress offset_ver offset_hor M arr_img r
                           h_img w_img h_proj w_proj
                           rest arr_proj' (S completed)
  end.

(** Scaling a point by a factor. *)
Definition scale_point (t : R) (p : Point3D) : Point3D :=
  mkPoint (t * px p) (t * py p) (t * pz p).

(** ** Sphere Intersector *)

Lemma denominator_pos (x y r : R) : 0 < r -> 0 < x ^ 2 + y ^ 2 + r ^ 2.
Proof. intros Hr. nra. Qed.

Lemma fdiv_ok (a b : R) : b <> 0 -> fdiv a b = Ok (a / b).
Proof.
  intros Hb. unfold fdiv.
  destruct (Req_dec_T b 0) as [E | _]; [contradiction | reflexivity].
Qed.

Lemma get_point_on_sphere_ok (p : Point3D) (r : R) :
  0 < r ->
  get_point_on_sphere p r =
  Ok (mkPoint (k_coeff (px p) (py p) r * px p)
              (k_coeff (px p) (py p) r * py p)
              ((k_coeff (px p) (py p) r - 1) * r)).
Proof.
  intros Hr. unfold get_point_on_sphere.
  rewrite fdiv_ok; [reflexivity |].
  pose proof (denominator_pos (px p) (py p) r Hr). lra.
Qed.

Lemma k_coeff_eq (x y r : R) :
  0 < r -> k_coeff x y r * (x ^ 2 + y ^ 2 + r ^ 2) = 2 * r ^ 2.
Proof.
  intros Hr. unfold k_coeff.
  pose proof (denominator_pos x y r Hr) as Hd.
  field. lra.
Qed.

Lemma k_coeff_range (x y r : R) : 0 < r -> 0 < k_coeff x y r <= 2.
Proof.
  intros Hr.
  pose proof (denominator_pos x y r Hr) as Hd.
  pose proof (k_coeff_eq x y r Hr) as Hk.
  assert (Hpos : 0 < k_coeff x y r).
  { unfold k_coeff. apply Rdiv_lt_0_compat; nra. }
  split; [exact Hpos |].
  destruct (Rle_dec (k_coeff x y r) 2) as [Hle | Hgt]; [exact Hle |].
  exfalso. apply Rnot_le_lt in Hgt.
  assert (2 * (x ^ 2 + y ^ 2 + r ^ 2) < k_coeff x y r * (x ^ 2 + y ^ 2 + r ^ 2))
    by (apply Rmult_lt_compat_r; assumption).
  nra.
Qed.

(** C1: for a plane point Q = (x, y, 0) and a radius r > 0 the sphere
    intersector returns (k x, k y, (k - 1) r) with
    k = 2 r^2 / (x^2 + y^2 + r^2); the denominator is strictly positive, so
    the division is defined. *)
Theorem get_point_on_sphere_formula (x y r : R) :
  0 < r ->
  0 < x ^ 2 + y ^ 2 + r ^ 2 /\
  get_point_on_sphere (mkPoint x y 0) r =
  Ok (mkPoint (k_coeff x y r * x) (k_coeff x y r * y) ((k_coeff x y r - 1) * r)).
Proof.
  intros Hr. split.
  - now apply denominator_pos.
  - now rewrite get_point_on_sphere_ok.
Qed.

Lemma get_point_on_sphere_formula_witness :
  0 < 3 ^ 2 + 4 ^ 2 + 5 ^ 2 /\
  get_point_on_sphere (mkPoint 3 4 0) 5 =
  Ok (mkPoint (k_coeff 3 4 5 * 3) (k_coeff 3 4 5 * 4) ((k_coeff 3 4 5 - 1) * 5)).
Proof. apply (get_point_on_sphere_formula 3 4 5). lra. Defined.

(** ** Rotation Builder and Axis Rotator *)

Lemma sin_cos_unit (t : R) : sin t * sin t + cos t * cos t = 1.
Proof. pose proof (sin2_cos2 t) as H. unfold Rsqr in H. exact H. Qed.

Lemma rot_mat_product (a b g : R) :
  rot_mat a b g = mat_mul (Rz g) (mat_mul (Ry b) (Rx a)).
Proof.
  unfold rot_mat, mat_mul, Rz, Ry, Rx, dot, col0, col1, col2; simpl.
  f_equal; f_equal; ring.
Qed.

Lemma rot_mat_zero : rot_mat 0 0 0 = identity.
Proof.
  unfold rot_mat, identity. rewrite cos_0, sin_0.
  f_equal; f_equal; ring.
Qed.

Lemma rot_mat_orthonormal (a b g : R) :
  mat_mul (transpose (rot_mat a b g)) (rot_mat a b g) = identity.
Proof.
  pose proof (sin_cos_unit a) as Ha.
  pose proof (sin_cos_unit b) as Hb.
  pose proof (sin_cos_unit g) as Hg.
  unfold rot_mat, mat_mul, transpose, identity, dot, col0, col1, col2; simpl.
  set (sa := sin a) in *. set (ca := cos a) in *.
  set (sb := sin b) in *. set (cb := cos b) in *.
  set (sg := sin g) in *. set (cg := cos g) in *.
  f_equal; f_equal; nsatz.
Qed.

Lemma axis_rotate_sq_norm (a b g : R) (p : Point3D) :
  sq_norm (axis_rotate p (rot_mat a b g)) = sq_norm p.
Proof.
  pose proof (sin_cos_unit a) as Ha.
  pose proof (sin_cos_unit b) as Hb.
  pose proof (sin_cos_unit g) as Hg.
  destruct p as [x y z].
  unfold sq_norm, axis_rotate, rot_mat, dot; simpl.
  set (sa := sin a) in *. set (ca := cos a) in *.
  set (sb := sin b) in *. set (cb := cos b) in *.
  set (sg := sin g) in *. set (cg := cos g) in *.
  nsatz.
Qed.

(** C6: the matrix built from (alpha, beta, gamma) is the product
    Rz(gamma) . Ry(beta) . Rx(alpha) of the single-axis rotations, and it is
    the identity when the three angles are 0. *)
Theorem rot_mat_is_Rz_Ry_Rx :
  (forall a b g : R, rot_mat a b g = mat_mul (Rz g) (mat_mul (Ry b) (Rx a))) /\
  rot_mat 0 0 0 = identity.
Proof. split; [exact rot_mat_product | exact rot_mat_zero]. Qed.

(** C7: for all angles the built matrix M is orthonormal, M^T . M being the
    identity, and [axis_rotate] with it keeps the Euclidean norm of every
    point. *)
Theorem rot_mat_orthonormal_norm_preserving (a b g : R) :
  mat_mul (transpose (rot_mat a b g)) (rot_mat a b g) = identity /\
  forall p : Point3D, norm (axis_rotate p (rot_mat a b g)) = norm p.
Proof.
  split.
  - apply rot_mat_orthonormal.
  - intros p. unfold norm. now rewrite axis_rotate_sq_norm.
Qed.

(** ** The poles and the sphere *)

Lemma k_coeff_origin (r : R) : 0 < r -> k_coeff 0 0 r = 2.
Proof. intros Hr. unfold k_coeff. field. lra. Qed.

Lemma get_point_on_sphere_origin (r : R) :
  0 < r -> get_point_on_sphere (mkPoint 0 0 0) r = Ok (mkPoint 0 0 r).
Proof.
  intros Hr. rewrite get_point_on_sphere_ok by exact Hr. simpl.
  rewrite k_coeff_origin by exact Hr.
  f_equal. f_equal; ring.
Qed.

Lemma sq_dist_to_projection_pole (x y r : R) :
  0 < r ->
  sq_norm (mkPoint (k_coeff x y r * x - 0) (k_coeff x y r * y - 0)
                   ((k_coeff x y r - 1) * r - - r))
  = k_coeff x y r * (2 * r ^ 2).
Proof.
  intros Hr. rewrite <- (k_coeff_eq x y r Hr).
  unfold sq_norm, dot; simpl. ring.
Qed.

Lemma on_sphere (x y r : R) :
  0 < r ->
  (k_coeff x y r * x) ^ 2 + (k_coeff x y r * y) ^ 2
  + ((k_coeff x y r - 1) * r) ^ 2 = r ^ 2.
Proof.
  intros Hr. pose proof (k_coeff_eq x y r Hr) as Hk.
  set (k := k_coeff x y r) in *.
  replace ((k * x) ^ 2 + (k * y) ^ 2 + ((k - 1) * r) ^ 2)
    with (k * (k * (x ^ 2 + y ^ 2 + r ^ 2)) - 2 * k * r ^ 2 + r ^ 2) by ring.
  rewrite Hk. ring.
Qed.

(** C2, as the specification states it, fails at r = 1: the plane origin is
    sent to (0, 0, 1), not to (0, 0, -1). *)
Lemma origin_is_not_sent_to_minus_r :
  get_point_on_sphere (mkPoint 0 0 0) 1 = Ok (mkPoint 0 0 1) /\
  get_point_on_sphere (mkPoint 0 0 0) 1 <> Ok (mkPoint 0 0 (- (1))).
Proof.
  assert (H : get_point_on_sphere (mkPoint 0 0 0) 1 = Ok (mkPoint 0 0 1))
    by (apply get_point_on_sphere_origin; lra).
  split; [exact H |].
  rewrite H. intros E. injection E as E. lra.
Qed.

(** C2, amended: for r > 0 the plane origin is sent to (0, 0, r), and the
    image of (x, y, 0) tends to (0, 0, -r) as x^2 + y^2 grows without
    bound. *)
Theorem get_point_on_sphere_poles (r : R) :
  0 < r ->
  get_point_on_sphere (mkPoint 0 0 0) r = Ok (mkPoint 0 0 r) /\
  forall eps : R, 0 < eps ->
    exists B : R, forall x y : R, B < x ^ 2 + y ^ 2 ->
      exists P : Point3D,
        get_point_on_sphere (mkPoint x y 0) r = Ok P /\
        dist P (mkPoint 0 0 (- r)) < eps.
Proof.
  intros Hr. split; [now apply get_point_on_sphere_origin |].
  intros eps Heps.
  exists (4 * r ^ 4 / (eps * eps)).
  intros x y HB.
  eexists. split; [apply get_point_on_sphere_ok; exact Hr |].
  unfold dist, norm; simpl.
  rewrite sq_dist_to_projection_pole by exact Hr.
  pose proof (denominator_pos x y r Hr) as Hd.
  pose proof (k_coeff_eq x y r Hr) as Hk.
  pose proof (k_coeff_range x y r Hr) as [Hk0 _].
  set (k := k_coeff x y r) in *.
  set (D := x ^ 2 + y ^ 2 + r ^ 2) in *.
  assert (He2 : 0 < eps * eps) by nra.
  assert (HD : 4 * r ^ 4 < eps * eps * D).
  { assert (HB' : 4 * r ^ 4 / (eps * eps) < D) by (unfold D; nra).
    apply (Rmult_lt_compat_l (eps * eps)) in HB'; [| exact He2].
    replace (eps * eps * (4 * r ^ 4 / (eps * eps))) with (4 * r ^ 4) in HB'
      by (field; lra).
    exact HB'. }
  assert (Hlt : k * (2 * r ^ 2) < eps * eps).
  { apply (Rmult_lt_reg_r D); [exact Hd |].
    replace (k * (2 * r ^ 2) * D) with ((k * D) * (2 * r ^ 2)) by ring.
    rewrite Hk.
    replace (2 * r ^ 2 * (2 * r ^ 2)) with (4 * r ^ 4) by ring.
    exact HD. }
  rewrite <- (sqrt_square eps) by lra.
  apply sqrt_lt_1_alt. split; [| exact Hlt].
  apply Rmult_le_pos; nra.
Qed.

Lemma get_point_on_sphere_poles_witness :
  get_point_on_sphere (mkPoint 0 0 0) 2 = Ok (mkPoint 0 0 2) /\
  forall eps : R, 0 < eps ->
    exists B : R, forall x y : R, B < x ^ 2 + y ^ 2 ->
      exists P : Point3D,
        get_point_on_sphere (mkPoint x y 0) 2 = Ok P /\
        dist P (mkPoint 0 0 (- (2))) < eps.
Proof. apply (get_point_on_sphere_poles 2). lra. Defined.

(** ** Sphere-to-Image Mapper *)

Lemma Int_part_IZR (n : Z) : Int_part (IZR n) = n.
Proof. symmetry. apply Int_part_spec. lra. Qed.

Lemma round_IZR (n : Z) : round (IZR n) = n.
Proof.
  unfold round. rewrite Int_part_IZR.
  destruct (Rlt_dec (IZR n - IZR n) (1 / 2)) as [_ | H]; [reflexivity |].
  exfalso. apply H. lra.
Qed.

Lemma imod_ok (a b : Z) : (0 < b)%Z -> imod a b = Ok (Z.modulo a b).
Proof.
  intros Hb. unfold imod.
  destruct (Z.eqb_spec b 0) as [E | _]; [lia | reflexivity].
Qed.

Lemma clamp_is_Rmin (z r : R) : (if Rlt_dec r z then r else z) = Rmin z r.
Proof.
  unfold Rmin.
  destruct (Rlt_dec r z) as [H | H], (Rle_dec z r) as [H' | H'];
    try reflexivity; lra.
Qed.

Lemma arccos_ok (t : R) : -1 <= t <= 1 -> arccos t = Fin (acos t).
Proof.
  intros [H1 H2]. unfold arccos.
  destruct (Rle_dec (-1) t) as [_ | N]; [| contradiction].
  destruct (Rle_dec t 1) as [_ | N]; [reflexivity | contradiction].
Qed.

Lemma arccos_below (t : R) : t < -1 -> arccos t = NaN.
Proof.
  intros H. unfold arccos.
  destruct (Rle_dec (-1) t) as [N | _]; [lra | reflexivity].
Qed.

Lemma acos_minus_1 : acos (-1) = PI.
Proof.
  replace (-1) with (- (1)) by lra.
  rewrite acos_opp, acos_1. ring.
Qed.

Lemma clamped_ratio_le_1 (z r : R) : 0 < r -> Rmin z r / r <= 1.
Proof.
  intros Hr. pose proof (Rmin_r z r) as Hm.
  apply (Rmult_le_reg_r r); [exact Hr |].
  replace (Rmin z r / r * r) with (Rmin z r) by (field; lra). lra.
Qed.

Lemma clamped_ratio_ge_m1 (z r : R) : 0 < r -> - r <= z -> -1 <= Rmin z r / r.
Proof.
  intros Hr Hz.
  assert (Hm : - r <= Rmin z r) by (apply Rmin_glb; lra).
  apply (Rmult_le_reg_r r); [exact Hr |].
  replace (Rmin z r / r * r) with (Rmin z r) by (field; lra). lra.
Qed.

Lemma clamped_ratio_lt_m1 (z r : R) : 0 < r -> z < - r -> Rmin z r / r < -1.
Proof.
  intros Hr Hz.
  assert (Hm : Rmin z r = z) by (apply Rmin_left; lra).
  rewrite Hm.
  apply (Rmult_lt_reg_r r); [exact Hr |].
  replace (z / r * r) with z by (field; lra). lra.
Qed.

(** The source computes the same pair as the specification's wording, on
    every point. *)
Lemma get_pix_on_img_spec (p : Point3D) (r : R) (h_img w_img : Z) :
  0 < r -> (0 < h_img)%Z -> (0 < w_img)%Z ->
  get_pix_on_img p r h_img w_img = spec_mapper p r h_img w_img.
Proof.
  intros Hr Hh Hw.
  unfold get_pix_on_img, spec_mapper, spec_row.
  rewrite clamp_is_Rmin, fdiv_ok by lra. simpl.
  rewrite !imod_ok by assumption. simpl.
  unfold spec_col.
  replace (arctan2 (py p) (px p) / 2 / PI)
    with (arctan2 (py p) (px p) / (2 * PI)); [reflexivity |].
  field. apply PI_neq0.
Qed.

Lemma spec_mapper_ok (p : Point3D) (r : R) (h_img w_img : Z) :
  0 < r -> - r <= pz p ->
  spec_mapper p r h_img w_img =
  Ok (Z.modulo (round (acos (Rmin (pz p) r / r) / PI * IZR h_img)) h_img,
      spec_col (px p) (py p) w_img).
Proof.
  intros Hr Hz. unfold spec_mapper, spec_row.
  rewrite arccos_ok; [reflexivity |].
  split; [now apply clamped_ratio_ge_m1 | now apply clamped_ratio_le_1].
Qed.

Lemma get_pix_on_img_always_in_bounds (p : Point3D) (r : R)
    (h_img w_img : Z) :
  0 < r -> (0 < h_img)%Z -> (0 < w_img)%Z ->
  exists pix, get_pix_on_img p r h_img w_img = Ok pix /\
              in_bounds pix h_img w_img.
Proof.
  intros Hr Hh Hw. rewrite get_pix_on_img_spec by assumption.
  eexists. split; [reflexivity |].
  unfold in_bounds, spec_row, spec_col; simpl.
  split; apply Z.mod_pos_bound; assumption.
Qed.

Lemma get_pix_on_img_in_bounds (p : Point3D) (r : R) (h_img w_img : Z) :
  0 < r -> (0 < h_img)%Z -> (0 < w_img)%Z -> - r <= pz p ->
  exists pix, get_pix_on_img p r h_img w_img = Ok pix /\
              in_bounds pix h_img w_img.
Proof.
  intros Hr Hh Hw Hz.
  rewrite get_pix_on_img_spec, spec_mapper_ok by assumption.
  eexists. split; [reflexivity |].
  unfold in_bounds, spec_col; simpl.
  split; apply Z.mod_pos_bound; assumption.
Qed.

(** C3: for r > 0 and positive dimensions the mapper clamps z to at most r
    and returns row = round(arccos(z/r)/PI * h_img) mod h_img and
    col = round((atan2(y, x)/(2 PI) + 0.5) * w_img) mod w_img; z = r gives
    row 0, and z = -r gives arccos(-1)/PI = 1, hence
    row = round(h_img) mod h_img = 0. *)
Theorem get_pix_on_img_formula (x y z r : R) (h_img w_img : Z) :
  0 < r -> (0 < h_img)%Z -> (0 < w_img)%Z ->
  get_pix_on_img (mkPoint x y z) r h_img w_img
  = spec_mapper (mkPoint x y z) r h_img w_img /\
  get_pix_on_img (mkPoint x y r) r h_img w_img
  = Ok (0%Z, spec_col x y w_img) /\
  (acos (- r / r) / PI = 1 /\
   Z.modulo (round (1 * IZR h_img)) h_img = 0%Z /\
   get_pix_on_img (mkPoint x y (- r)) r h_img w_img
   = Ok (0%Z, spec_col x y w_img)).
Proof.
  intros Hr Hh Hw.
  assert (Hone : r / r = 1) by (field; lra).
  assert (Hmone : - r / r = -1) by (field; lra).
  assert (Hrow1 : Z.modulo (round (1 * IZR h_img)) h_img = 0%Z).
  { rewrite Rmult_1_l, round_IZR. apply Z_mod_same_full. }
  assert (Hacos : acos (- r / r) / PI = 1).
  { rewrite Hmone, acos_minus_1. field. apply PI_neq0. }
  split; [now apply get_pix_on_img_spec |].
  split; [| split; [exact Hacos | split; [exact Hrow1 |]]].
  - rewrite get_pix_on_img_spec, spec_mapper_ok by (simpl; lra || assumption).
    simpl. rewrite Rmin_left by lra. rewrite Hone, acos_1.
    replace (0 / PI * IZR h_img) with (IZR 0)
      by (field; apply PI_neq0).
    rewrite round_IZR, Z.mod_0_l by lia. reflexivity.
  - rewrite get_pix_on_img_spec, spec_mapper_ok by (simpl; lra || assumption).
    simpl. rewrite Rmin_left by lra. rewrite Hacos, Hrow1. reflexivity.
Qed.


(** ** Projection Pipeline *)

Lemma sq_norm_sphere_point (x y r : R) :
  0 < r ->
  sq_norm (mkPoint (k_coeff x y r * x) (k_coeff x y r * y)
                   ((k_coeff x y r - 1) * r)) = r ^ 2.
Proof.
  intros Hr. rewrite <- (on_sphere x y r Hr).
  unfold sq_norm, dot; simpl. ring.
Qed.

Lemma sq_norm_bounds_z (p : Point3D) (r : R) :
  0 < r -> sq_norm p = r ^ 2 -> - r <= pz p <= r.
Proof.
  intros Hr H. unfold sq_norm, dot in H.
  assert (Hz : pz p * pz p <= r * r) by nra.
  split; nra.
Qed.

Lemma rotated_sphere_point_z (a b g x y r : R) :
  0 < r ->
  - r <= pz (axis_rotate (mkPoint (k_coeff x y r * x) (k_coeff x y r * y)
                                  ((k_coeff x y r - 1) * r))
                         (rot_mat a b g)) <= r.
Proof.
  intros Hr. apply sq_norm_bounds_z; [exact Hr |].
  rewrite axis_rotate_sq_norm. now apply sq_norm_sphere_point.
Qed.

Lemma pipeline_from_plane_in_bounds (a b g x y r : R) (h_img w_img : Z) :
  0 < r -> (0 < h_img)%Z -> (0 < w_img)%Z ->
  exists pix,
    pipeline_from_plane (rot_mat a b g) x y r h_img w_img = Ok pix /\
    in_bounds pix h_img w_img.
Proof.
  intros Hr Hh Hw. unfold pipeline_from_plane.
  rewrite get_point_on_sphere_ok by exact Hr. simpl.
  apply get_pix_on_img_in_bounds; try assumption.
  apply rotated_sphere_point_z; exact Hr.
Qed.

Lemma projection_unfold (ov oh : R) (M : Mat3) (row col : Z) (r : R)
    (h_img w_img h_proj w_proj : Z) :
  projection ov oh M (row, col) r h_img w_img h_proj w_proj =
  pipeline_from_plane M (IZR row + (ov - 1 / 2) * IZR h_proj)
                        (IZR col + (oh - 1 / 2) * IZR w_proj) r h_img w_img.
Proof. reflexivity. Qed.

Lemma projection_in_bounds (ov oh a b g : R) (pix_proj : Z * Z) (r : R)
    (h_img w_img h_proj w_proj : Z) :
  0 < r -> (0 < h_img)%Z -> (0 < w_img)%Z ->
  exists pix,
    projection ov oh (rot_mat a b g) pix_proj r h_img w_img h_proj w_proj
    = Ok pix /\ in_bounds pix h_img w_img.
Proof.
  intros Hr Hh Hw. destruct pix_proj as [row col].
  rewrite projection_unfold. now apply pipeline_from_plane_in_bounds.
Qed.

(** C8: [projection] turns the output pixel (row, col) into the plane
    point (row + (offset_ver - 0.5) h_proj, col + (offset_hor - 0.5) w_proj,
    0), applies the sphere intersector, then the axis rotator with the
    rotation matrix, then the mapper, and returns the mapper's result. *)
Theorem projection_is_composition (ov oh : R) (M : Mat3) (row col : Z)
    (r : R) (h_img w_img h_proj w_proj : Z) :
  0 < r ->
  let x := IZR row + (ov - 1 / 2) * IZR h_proj in
  let y := IZR col + (oh - 1 / 2) * IZR w_proj in
  projection ov oh M (row, col) r h_img w_img h_proj w_proj =
  (let* P := get_point_on_sphere (mkPoint x y 0) r in
   get_pix_on_img (axis_rotate P M) r h_img w_img) /\
  projection ov oh M (row, col) r h_img w_img h_proj w_proj =
  get_pix_on_img
    (axis_rotate (mkPoint (k_coeff x y r * x) (k_coeff x y r * y)
                          ((k_coeff x y r - 1) * r)) M)
    r h_img w_img.
Proof.
  intros Hr x y. split; [reflexivity |].
  rewrite projection_unfold. unfold pipeline_from_plane.
  fold x. fold y.
  rewrite get_point_on_sphere_ok by exact Hr. reflexivity.
Qed.

(** In exact arithmetic the argument of [np.arccos] reaches -1 inside the
    pipeline: the plane point (r, 0, 0) is its own image on the sphere,
    and the rotation with beta = PI / 2 sends it to z = -r.  The lower
    bound of the domain is met with no margin, and no clamp guards it. *)
Lemma arccos_argument_reaches_minus_1 (r : R) :
  0 < r ->
  get_point_on_sphere (mkPoint r 0 0) r = Ok (mkPoint r 0 0) /\
  pz (axis_rotate (mkPoint r 0 0) (rot_mat 0 (PI / 2) 0)) = - r /\
  (if Rlt_dec r (- r) then r else - r) / r = -1.
Proof.
  intros Hr. split; [| split].
  - rewrite get_point_on_sphere_ok by exact Hr. simpl.
    assert (E : k_coeff r 0 r = 1) by (unfold k_coeff; field; nra).
    rewrite E. f_equal. f_equal; ring.
  - unfold axis_rotate, rot_mat, dot; simpl.
    rewrite sin_PI2, cos_PI2. ring.
  - destruct (Rlt_dec r (- r)) as [N | _]; [lra |]. field. lra.
Qed.

(** ** Sampler/Driver: index enumeration *)

Lemma in_ndindex (h w : nat) (i j : Z) :
  In (i, j) (ndindex h w) <->
  (0 <= i < Z.of_nat h)%Z /\ (0 <= j < Z.of_nat w)%Z.
Proof.
  unfold ndindex. rewrite in_flat_map. split.
  - intros [a [Ha Hin]]. apply in_map_iff in Hin as [b [E Hb]].
    injection E as <- <-. apply in_seq in Ha, Hb. lia.
  - intros [Hi Hj]. exists (Z.to_nat i). split; [apply in_seq; lia |].
    apply in_map_iff. exists (Z.to_nat j). split; [| apply in_seq; lia].
    f_equal; lia.
Qed.

Lemma NoDup_row (i w : nat) :
  NoDup (map (fun j => (Z.of_nat i, Z.of_nat j)) (seq 0 w)).
Proof.
  apply Injective_map_NoDup; [| apply seq_NoDup].
  intros a b E. injection E as E. lia.
Qed.

Lemma NoDup_ndindex (h w : nat) : NoDup (ndindex h w).
Proof.
  unfold ndindex. induction h as [| h IH]; [constructor |].
  rewrite seq_S, flat_map_app. simpl. rewrite app_nil_r.
  apply NoDup_app; [exact IH | apply NoDup_row |].
  intros [a b] Hin Hrow.
  apply (in_ndindex h w a b) in Hin.
  apply in_map_iff in Hrow as [c [E _]]. injection E as E _. lia.
Qed.

(** ** Sampler/Driver: reading and writing a buffer *)

Section ListSet.

Context {A : Type}.

Lemma list_set_length (l : list A) (n : nat) (v : A) :
  length (list_set l n v) = length l.
Proof.
  revert n. induction l as [| a t IH]; intros [| n]; simpl; auto.
Qed.

Lemma nth_error_list_set_eq (l : list A) (n : nat) (v : A) :
  (n < length l)%nat -> nth_error (list_set l n v) n = Some v.
Proof.
  revert n. induction l as [| a t IH]; intros [| n] H; simpl in *;
    try lia; [reflexivity | apply IH; lia].
Qed.

Lemma nth_error_list_set_neq (l : list A) (n m : nat) (v : A) :
  n <> m -> nth_error (list_set l n v) m = nth_error l m.
Proof.
  revert n m. induction l as [| a t IH]; intros [| n] [| m] H; simpl;
    try reflexivity; try congruence.
  apply IH. congruence.
Qed.

Lemma Forall_list_set (P : A -> Prop) (l : list A) (n : nat) (v : A) :
  Forall P l -> P v -> Forall P (list_set l n v).
Proof.
  intros Hl Hv. revert n.
  induction Hl as [| a t Ha Ht IH]; intros [| n]; simpl;
    constructor; auto.
Qed.

End ListSet.

Lemma norm_index_in_range (i : Z) (n : nat) :
  (0 <= i < Z.of_nat n)%Z -> norm_index i n = Ok (Z.to_nat i).
Proof.
  intros H. unfold norm_index.
  destruct (Z.leb_spec 0 i); [| lia].
  destruct (Z.ltb_spec i (Z.of_nat n)); [reflexivity | lia].
Qed.

Lemma rectangular_row (arr : Image) (h w : nat) (i : nat) :
  rectangular arr h w -> (i < h)%nat ->
  exists line, nth_error arr i = Some line /\ length line = w.
Proof.
  intros [Hlen Hall] Hi.
  destruct (nth_error arr i) as [line |] eqn:E.
  - exists line. split; [reflexivity |].
    rewrite Forall_forall in Hall. apply Hall.
    eapply nth_error_In; exact E.
  - exfalso. apply nth_error_None in E. lia.
Qed.

Lemma img_get_ok (arr : Image) (h w : nat) (pix : Z * Z) :
  rectangular arr h w -> in_bounds pix (Z.of_nat h) (Z.of_nat w) ->
  exists c, img_get arr pix = Ok c.
Proof.
  intros Hrect [Hi Hj]. destruct pix as [i j]; simpl in *.
  destruct (rectangular_row arr h w (Z.to_nat i) Hrect) as [line [E Hl]];
    [lia |].
  unfold img_get. destruct Hrect as [Hlen _].
  rewrite norm_index_in_range by lia. simpl. rewrite E.
  rewrite norm_index_in_range by lia. simpl.
  destruct (nth_error line (Z.to_nat j)) as [c |] eqn:Ec.
  - now exists c.
  - exfalso. apply nth_error_None in Ec. lia.
Qed.

Lemma img_set_ok (arr : Image) (h w : nat) (pix : Z * Z) (c : RGB) :
  rectangular arr h w -> in_bounds pix (Z.of_nat h) (Z.of_nat w) ->
  exists arr',
    img_set arr pix c = Ok arr' /\
    rectangular arr' h w /\
    img_get arr' pix = Ok c /\
    forall q, in_bounds q (Z.of_nat h) (Z.of_nat w) -> q <> pix ->
              img_get arr' q = img_get arr q.
Proof.
  intros Hrect [Hi Hj]. destruct pix as [i j]; simpl in *.
  destruct (rectangular_row arr h w (Z.to_nat i) Hrect) as [line [E Hl]];
    [lia |].
  destruct Hrect as [Hlen Hall].
  unfold img_set.
  rewrite norm_index_in_range by lia. simpl. rewrite E.
  rewrite norm_index_in_range by lia. simpl.
  eexists. split; [reflexivity |].
  assert (Hrect' : rectangular
            (list_set arr (Z.to_nat i) (list_set line (Z.to_nat j) c)) h w).
  { split; [now rewrite list_set_length |].
    apply Forall_list_set; [exact Hall | now rewrite list_set_length]. }
  split; [exact Hrect' |]. split.
  - unfold img_get. rewrite list_set_length.
    rewrite norm_index_in_range by lia. simpl.
    rewrite nth_error_list_set_eq by lia.
    rewrite list_set_length, norm_index_in_range by lia. simpl.
    now rewrite nth_error_list_set_eq by lia.
  - intros [i' j'] [Hi' Hj'] Hneq; simpl in *.
    unfold img_get. rewrite list_set_length.
    rewrite norm_index_in_range by lia. simpl.
    destruct (Nat.eq_dec (Z.to_nat i) (Z.to_nat i')) as [Ei | Ni].
    + rewrite <- Ei, nth_error_list_set_eq, E by lia.
      rewrite list_set_length.
      rewrite norm_index_in_range by lia. simpl.
      rewrite nth_error_list_set_neq; [reflexivity |].
      intros Ej. apply Hneq. f_equal; lia.
    + now rewrite nth_error_list_set_neq by exact Ni.
Qed.

Lemma zeros_ok (h w : Z) :
  (0 <= h)%Z -> (0 <= w)%Z ->
  exists arr, zeros h w = Ok arr /\
              rectangular arr (Z.to_nat h) (Z.to_nat w).
Proof.
  intros Hh Hw. unfold zeros.
  destruct (Z.ltb_spec h 0); [lia |].
  destruct (Z.ltb_spec w 0); [lia |]. simpl.
  eexists. split; [reflexivity |].
  split; [apply repeat_length |].
  apply Forall_forall. intros line Hin.
  apply repeat_spec in Hin. subst line. apply repeat_length.
Qed.

(** ** Sampler/Driver: the loop *)

Section SamplerFacts.

Variables (ov oh a b g r : R).
Variables (arr_img : Image) (h_img w_img : nat) (h_proj w_proj : Z).
Variables (h_buf w_buf : nat).

Hypothesis r_pos : 0 < r.
Hypothesis src_rect : rectangular arr_img h_img w_img.
Hypothesis h_img_pos : (0 < h_img)%nat.
Hypothesis w_img_pos : (0 < w_img)%nat.

Let project (p : Z * Z) : result (Z * Z) :=
  projection ov oh (rot_mat a b g) p r
             (Z.of_nat h_img) (Z.of_nat w_img) h_proj w_proj.

Let step : Image -> Z * Z -> result Image :=
  sample_step ov oh (rot_mat a b g) arr_img r
              (Z.of_nat h_img) (Z.of_nat w_img) h_proj w_proj.

Let loop : list (Z * Z) -> Image -> result Image :=
  sample_loop ov oh (rot_mat a b g) arr_img r
              (Z.of_nat h_img) (Z.of_nat w_img) h_proj w_proj.

Let inside (p : Z * Z) : Prop :=
  in_bounds p (Z.of_nat h_buf) (Z.of_nat w_buf).

Lemma project_reads_source (p : Z * Z) :
  exists pix c, project p = Ok pix /\
                in_bounds pix (Z.of_nat h_img) (Z.of_nat w_img) /\
                img_get arr_img pix = Ok c.
Proof.
  destruct (projection_in_bounds ov oh a b g p r (Z.of_nat h_img)
              (Z.of_nat w_img) h_proj w_proj r_pos) as [pix [E Hb]];
    [lia | lia |].
  destruct (img_get_ok arr_img h_img w_img pix src_rect Hb) as [c Ec].
  now exists pix, c.
Qed.

Lemma sample_step_ok (buf : Image) (p : Z * Z) :
  rectangular buf h_buf w_buf -> inside p ->
  exists pix buf',
    project p = Ok pix /\
    step buf p = Ok buf' /\
    rectangular buf' h_buf w_buf /\
    img_get buf' p = img_get arr_img pix /\
    (exists c, img_get buf' p = Ok c) /\
    forall q, inside q -> q <> p -> img_get buf' q = img_get buf q.
Proof.
  intros Hrect Hp.
  destruct (project_reads_source p) as [pix [c [E [Hb Ec]]]].
  destruct (img_set_ok buf h_buf w_buf p c Hrect Hp)
    as [buf' [Eset [Hrect' [Hget Hother]]]].
  exists pix, buf'. unfold step, sample_step. fold (project p).
  rewrite E; simpl. rewrite Ec; simpl.
  split; [reflexivity |]. split; [exact Eset |].
  split; [exact Hrect' |]. split; [congruence |].
  split; [now exists c | exact Hother].
Qed.

Lemma sample_loop_ok (pixels : list (Z * Z)) :
  forall buf : Image,
    NoDup pixels -> (forall p, In p pixels -> inside p) ->
    rectangular buf h_buf w_buf ->
    exists out,
      loop pixels buf = Ok out /\
      rectangular out h_buf w_buf /\
      (forall p, In p pixels ->
         exists pix, project p = Ok pix /\
                     img_get out p = img_get arr_img pix /\
                     exists c, img_get out p = Ok c) /\
      (forall q, inside q -> ~ In q pixels ->
                 img_get out q = img_get buf q).
Proof.
  induction pixels as [| p rest IH]; intros buf Hnd Hin Hrect.
  - exists buf. simpl.
    split; [reflexivity |]. split; [exact Hrect |].
    split; [intros p [] | reflexivity].
  - inversion Hnd as [| ? ? Hnotin Hnd']; subst.
    destruct (sample_step_ok buf p Hrect (Hin p (or_introl eq_refl)))
      as [pix [buf' [E [Estep [Hrect' [Hget [Hc Hother]]]]]]].
    destruct (IH buf' Hnd' (fun q Hq => Hin q (or_intror Hq)) Hrect')
      as [out [Eloop [Hrect_out [Hdone Hkept]]]].
    exists out. unfold loop in *; simpl.
    fold step. rewrite Estep; simpl.
    split; [exact Eloop |]. split; [exact Hrect_out |]. split.
    + intros q [<- | Hq].
      * exists pix.
        rewrite (Hkept p (Hin p (or_introl eq_refl)) Hnotin).
        auto.
      * now apply Hdone.
    + intros q Hq Hnot.
      rewrite (Hkept q Hq (fun H => Hnot (or_intror H))).
      apply Hother; [exact Hq |].
      intros ->. apply Hnot. now left.
Qed.

End SamplerFacts.

Lemma radius_pos (cfg : Config) (h_proj w_proj : Z) :
  0 < scale cfg -> (0 < h_proj)%Z -> (0 < w_proj)%Z ->
  0 < radius cfg h_proj w_proj.
Proof.
  intros Hs Hh Hw. unfold radius.
  assert (Hm : 0 < IZR (Z.min h_proj w_proj)) by (apply IZR_lt; lia).
  apply Rmult_lt_0_compat; [| exact Hs]. lra.
Qed.

Lemma shape_rectangular (arr : Image) (h w : nat) :
  rectangular arr h w -> (0 < h)%nat -> shape arr = (h, w).
Proof.
  intros [Hlen Hall] Hh. unfold shape.
  destruct arr as [| line rest]; simpl in *; [lia |].
  inversion Hall; subst. reflexivity.
Qed.

(** C9: the driver visits every coordinate of the output buffer exactly
    once, in row-major order, and leaves at each the source color found at
    [projection] of that coordinate; the output buffer is a function of the
    configuration and the source buffer, so two runs on the same inputs
    give the same buffer. *)
Theorem run_samples_every_pixel_once
    (cfg : Config) (arr_img : Image) (h_img w_img : nat) :
  rectangular arr_img h_img w_img ->
  (0 < h_img)%nat -> (0 < w_img)%nat ->
  0 < scale cfg ->
  (0 < out_height cfg (Z.of_nat h_img))%Z ->
  (0 < out_width cfg (Z.of_nat w_img))%Z ->
  let h_proj := out_height cfg (Z.of_nat h_img) in
  let w_proj := out_width cfg (Z.of_nat w_img) in
  let r := radius cfg h_proj w_proj in
  let M := rot_mat (alpha cfg) (beta cfg) (gamma cfg) in
  let visited := ndindex (Z.to_nat h_proj) (Z.to_nat w_proj) in
  NoDup visited /\
  (forall i j : Z,
     In (i, j) visited <-> (0 <= i < h_proj)%Z /\ (0 <= j < w_proj)%Z) /\
  exists blank out : Image,
    zeros h_proj w_proj = Ok blank /\
    run cfg arr_img =
    sample_loop (offset_ver cfg) (offset_hor cfg) M arr_img r
                (Z.of_nat h_img) (Z.of_nat w_img) h_proj w_proj
                visited blank /\
    run cfg arr_img = Ok out /\
    rectangular out (Z.to_nat h_proj) (Z.to_nat w_proj) /\
    (forall p : Z * Z, In p visited ->
       exists pix : Z * Z,
         projection (offset_ver cfg) (offset_hor cfg) M p r
                    (Z.of_nat h_img) (Z.of_nat w_img) h_proj w_proj = Ok pix /\
         img_get out p = img_get arr_img pix /\
         exists c : RGB, img_get out p = Ok c) /\
    (forall out' : Image, run cfg arr_img = Ok out' -> out' = out).
Proof.
  intros Hrect Hh Hw Hs Hhp Hwp h_proj w_proj r M visited.
  assert (Hin : forall i j : Z,
             In (i, j) visited <->
             (0 <= i < h_proj)%Z /\ (0 <= j < w_proj)%Z).
  { intros i j. unfold visited. rewrite in_ndindex. lia. }
  split; [apply NoDup_ndindex |]. split; [exact Hin |].
  destruct (zeros_ok h_proj w_proj) as [blank [Ez Hblank]];
    [unfold h_proj; lia | unfold w_proj; lia |].
  assert (Hr : 0 < r) by (apply radius_pos; assumption).
  destruct (sample_loop_ok (offset_ver cfg) (offset_hor cfg)
              (alpha cfg) (beta cfg) (gamma cfg) r arr_img h_img w_img
              h_proj w_proj (Z.to_nat h_proj) (Z.to_nat w_proj)
              Hr Hrect Hh Hw visited blank)
    as [out [Eloop [Hout [Hdone _]]]].
  - apply NoDup_ndindex.
  - intros [i j] Hp. apply Hin in Hp. unfold in_bounds; simpl. lia.
  - exact Hblank.
  - assert (Erun : run cfg arr_img =
                   sample_loop (offset_ver cfg) (offset_hor cfg) M arr_img r
                     (Z.of_nat h_img) (Z.of_nat w_img) h_proj w_proj
                     visited blank).
    { unfold run. rewrite (shape_rectangular arr_img h_img w_img Hrect Hh).
      simpl fst; simpl snd.
      fold (out_height cfg (Z.of_nat h_img)).
      fold (out_width cfg (Z.of_nat w_img)).
      fold h_proj. fold w_proj. rewrite Ez. reflexivity. }
    exists blank, out.
    split; [exact Ez |]. split; [exact Erun |].
    assert (Eout : run cfg arr_img = Ok out) by (rewrite Erun; exact Eloop).
    split; [exact Eout |]. split; [exact Hout |].
    split; [exact Hdone |].
    intros out' E'. rewrite Eout in E'. now injection E'.
Qed.

(** ** Checks on concrete inputs *)

Example ndindex_2_3 :
  ndindex 2 3 = [(0, 0); (0, 1); (0, 2); (1, 0); (1, 1); (1, 2)]%Z.
Proof. reflexivity. Qed.

Example img_get_tiny : img_get tiny_img (1, 0)%Z = Ok (mkRGB 0 0 255).
Proof. reflexivity. Qed.

Example img_get_tiny_from_the_end :
  img_get tiny_img (-1, -2)%Z = Ok (mkRGB 0 0 255).
Proof. reflexivity. Qed.

Example img_get_tiny_outside : img_get tiny_img (2, 0)%Z = Err IndexError.
Proof. reflexivity. Qed.

Example img_set_tiny :
  img_set tiny_img (0, 1)%Z (mkRGB 9 9 9) =
  Ok [[mkRGB 255 0 0; mkRGB 9 9 9]; [mkRGB 0 0 255; mkRGB 255 255 255]].
Proof. reflexivity. Qed.

Example imod_negative : imod (-1) 4 = Ok 3%Z.
Proof. reflexivity. Qed.

Example imod_by_zero : imod 5 0 = Err ZeroDivisionError.
Proof. reflexivity. Qed.

Lemma round_tie (n : Z) :
  round (IZR n + 1 / 2) = if Z.even n then n else (n + 1)%Z.
Proof.
  unfold round.
  assert (E : Int_part (IZR n + 1 / 2) = n)
    by (symmetry; apply Int_part_spec; lra).
  rewrite E.
  destruct (Rlt_dec (IZR n + 1 / 2 - IZR n) (1 / 2)) as [H | _]; [lra |].
  destruct (Rlt_dec (1 / 2) (IZR n + 1 / 2 - IZR n)) as [H | _]; [lra |].
  reflexivity.
Qed.

Example round_ties_to_even :
  round (5 / 2) = 2%Z /\ round (7 / 2) = 4%Z /\ round (- (1) / 2) = 0%Z.
Proof.
  replace (5 / 2) with (IZR 2 + 1 / 2) by lra.
  replace (7 / 2) with (IZR 3 + 1 / 2) by lra.
  replace (- (1) / 2) with (IZR (-1) + 1 / 2) by lra.
  rewrite !round_tie. repeat split.
Qed.

Example get_point_on_sphere_3_4_5 :
  get_point_on_sphere (mkPoint 3 4 0) 5 = Ok (mkPoint 3 4 0).
Proof.
  rewrite get_point_on_sphere_ok by lra. simpl.
  assert (E : k_coeff 3 4 5 = 1) by (unfold k_coeff; field).
  rewrite E. f_equal. f_equal; ring.
Qed.

Example get_point_on_sphere_zero_radius_at_origin :
  get_point_on_sphere (mkPoint 0 0 0) 0 = Err ZeroDivisionError.
Proof.
  unfold get_point_on_sphere, fdiv; simpl.
  destruct (Req_dec_T (0 * (0 * 1) + 0 * (0 * 1) + 0 * (0 * 1)) 0)
    as [_ | N]; [reflexivity |].
  exfalso. apply N. ring.
Qed.

(** * Further properties of the code *)

(** ** Sphere Intersector: failure, injectivity, hemispheres *)

Lemma sum_sq_zero (x y r : R) :
  x ^ 2 + y ^ 2 + r ^ 2 = 0 <-> x = 0 /\ y = 0 /\ r = 0.
Proof.
  split.
  - intros H. repeat split; nra.
  - intros [-> [-> ->]]. ring.
Qed.

Lemma get_point_on_sphere_defined (p : Point3D) (r : R) :
  px p ^ 2 + py p ^ 2 + r ^ 2 <> 0 ->
  get_point_on_sphere p r =
  Ok (mkPoint (k_coeff (px p) (py p) r * px p)
              (k_coeff (px p) (py p) r * py p)
              ((k_coeff (px p) (py p) r - 1) * r)).
Proof.
  intros H. unfold get_point_on_sphere. now rewrite fdiv_ok.
Qed.

(** X1: [get_point_on_sphere] raises ZeroDivisionError exactly when
    x = 0, y = 0 and r = 0; in every other case, negative radii included,
    it returns the point of the formula. *)
Theorem get_point_on_sphere_fails_iff (p : Point3D) (r : R) :
  (get_point_on_sphere p r = Err ZeroDivisionError <->
   px p = 0 /\ py p = 0 /\ r = 0) /\
  (get_point_on_sphere p r =
   Ok (mkPoint (k_coeff (px p) (py p) r * px p)
               (k_coeff (px p) (py p) r * py p)
               ((k_coeff (px p) (py p) r - 1) * r)) <->
   ~ (px p = 0 /\ py p = 0 /\ r = 0)).
Proof.
  destruct (Req_dec_T (px p ^ 2 + py p ^ 2 + r ^ 2) 0) as [Z | NZ].
  - assert (E : get_point_on_sphere p r = Err ZeroDivisionError).
    { unfold get_point_on_sphere, fdiv.
      destruct (Req_dec_T (px p ^ 2 + py p ^ 2 + r ^ 2) 0);
        [reflexivity | contradiction]. }
    apply sum_sq_zero in Z. rewrite E. split; split; intros H.
    + exact Z.
    + reflexivity.
    + discriminate H.
    + contradiction.
  - rewrite (get_point_on_sphere_defined p r NZ).
    rewrite <- sum_sq_zero. split; split; intros H.
    + discriminate H.
    + contradiction.
    + exact NZ.
    + reflexivity.
Qed.

(** X2: for r > 0 two plane points with the same image on the sphere have
    the same x and y: the intersector is injective on the plane. *)
Theorem get_point_on_sphere_injective (p q : Point3D) (r : R) :
  0 < r ->
  get_point_on_sphere p r = get_point_on_sphere q r ->
  px p = px q /\ py p = py q.
Proof.
  intros Hr E.
  rewrite !get_point_on_sphere_ok in E by exact Hr.
  injection E as Ex Ey Ez.
  pose proof (k_coeff_range (px p) (py p) r Hr) as [Hk _].
  set (k := k_coeff (px p) (py p) r) in *.
  set (k' := k_coeff (px q) (py q) r) in *.
  assert (Ek : k = k').
  { apply (Rmult_eq_reg_r r); [| lra]. lra. }
  rewrite <- Ek in Ex, Ey.
  split; apply (Rmult_eq_reg_l k); lra.
Qed.

Lemma get_point_on_sphere_injective_witness :
  px (mkPoint 3 4 0) = px (mkPoint 3 4 7) /\
  py (mkPoint 3 4 0) = py (mkPoint 3 4 7).
Proof.
  apply (get_point_on_sphere_injective (mkPoint 3 4 0) (mkPoint 3 4 7) 5).
  - lra.
  - reflexivity.
Defined.

Lemma k_minus_1 (x y r : R) :
  0 < r ->
  (k_coeff x y r - 1) * (x ^ 2 + y ^ 2 + r ^ 2) = r ^ 2 - (x ^ 2 + y ^ 2).
Proof.
  intros Hr. pose proof (k_coeff_eq x y r Hr) as Hk. lra.
Qed.

(** X3: for r > 0 the image of (x, y, 0) has z > 0 exactly when the plane
    point is inside the circle of radius r, z < 0 exactly when it is
    outside, and a point on that circle is returned unchanged. *)
Theorem get_point_on_sphere_hemispheres (x y r : R) :
  0 < r ->
  exists P : Point3D,
    get_point_on_sphere (mkPoint x y 0) r = Ok P /\
    (0 < pz P <-> x ^ 2 + y ^ 2 < r ^ 2) /\
    (pz P < 0 <-> r ^ 2 < x ^ 2 + y ^ 2) /\
    (x ^ 2 + y ^ 2 = r ^ 2 -> P = mkPoint x y 0).
Proof.
  intros Hr. eexists.
  split; [apply get_point_on_sphere_ok; exact Hr |]. simpl.
  pose proof (denominator_pos x y r Hr) as Hd.
  pose proof (k_minus_1 x y r Hr) as Hk.
  set (k := k_coeff x y r) in *.
  set (D := x ^ 2 + y ^ 2 + r ^ 2) in *.
  assert (Hsign_pos : 0 < k - 1 <-> x ^ 2 + y ^ 2 < r ^ 2).
  { split; intros H.
    - assert (0 < (k - 1) * D) by (apply Rmult_lt_0_compat; assumption). lra.
    - destruct (Rlt_dec 0 (k - 1)) as [Hp | Hn]; [exact Hp |].
      assert ((k - 1) * D <= 0 * D)
        by (apply Rmult_le_compat_r; lra). lra. }
  assert (Hsign_neg : k - 1 < 0 <-> r ^ 2 < x ^ 2 + y ^ 2).
  { split; intros H.
    - assert ((k - 1) * D < 0 * D) by (apply Rmult_lt_compat_r; assumption).
      lra.
    - destruct (Rlt_dec (k - 1) 0) as [Hp | Hn]; [exact Hp |].
      assert (0 * D <= (k - 1) * D)
        by (apply Rmult_le_compat_r; lra). lra. }
  split; [| split].
  - rewrite <- Hsign_pos. split; intros H.
    + apply (Rmult_lt_reg_r r); [exact Hr |]. lra.
    + apply Rmult_lt_0_compat; assumption.
  - rewrite <- Hsign_neg. split; intros H.
    + apply (Rmult_lt_reg_r r); [exact Hr |]. lra.
    + replace 0 with (0 * r) by ring.
      apply Rmult_lt_compat_r; assumption.
  - intros Heq.
    assert (Ek : k = 1).
    { assert ((k - 1) * D = 0) by lra.
      apply Rmult_integral in H. destruct H; lra. }
    rewrite Ek. f_equal; ring.
Qed.

Lemma get_point_on_sphere_hemispheres_witness :
  exists P : Point3D,
    get_point_on_sphere (mkPoint 3 4 0) 5 = Ok P /\
    (0 < pz P <-> 3 ^ 2 + 4 ^ 2 < 5 ^ 2) /\
    (pz P < 0 <-> 5 ^ 2 < 3 ^ 2 + 4 ^ 2) /\
    (3 ^ 2 + 4 ^ 2 = 5 ^ 2 -> P = mkPoint 3 4 0).
Proof. apply (get_point_on_sphere_hemispheres 3 4 5). lra. Defined.

(** ** Rotation: composition, inverse, determinant, special angles *)

Lemma axis_rotate_mat_mul (p : Point3D) (A B : Mat3) :
  axis_rotate (axis_rotate p A) B = axis_rotate p (mat_mul B A).
Proof.
  destruct p as [x y z], A as [[a1 a2 a3] [a4 a5 a6] [a7 a8 a9]],
    B as [[b1 b2 b3] [b4 b5 b6] [b7 b8 b9]].
  unfold axis_rotate, mat_mul, dot, col0, col1, col2; simpl.
  f_equal; ring.
Qed.

Lemma axis_rotate_identity (p : Point3D) : axis_rotate p identity = p.
Proof.
  destruct p as [x y z]. unfold axis_rotate, identity, dot; simpl.
  f_equal; ring.
Qed.

(** X4: rotating with A and then with B is rotating once with the matrix
    product B . A, and rotating with the matrix of zero angles returns
    the point unchanged. *)
Theorem axis_rotate_composes :
  (forall (p : Point3D) (A B : Mat3),
     axis_rotate (axis_rotate p A) B = axis_rotate p (mat_mul B A)) /\
  (forall p : Point3D, axis_rotate p (rot_mat 0 0 0) = p).
Proof.
  split; [exact axis_rotate_mat_mul |].
  intros p. rewrite rot_mat_zero. apply axis_rotate_identity.
Qed.

(** X5: the rotation by [rot_mat] is undone by its transpose, and the
    transpose is undone by the rotation: for all angles the rotation is a
    bijection of space. *)
Theorem axis_rotate_transpose_inverse (a b g : R) (p : Point3D) :
  axis_rotate (axis_rotate p (rot_mat a b g)) (transpose (rot_mat a b g)) = p /\
  axis_rotate (axis_rotate p (transpose (rot_mat a b g))) (rot_mat a b g) = p.
Proof.
  pose proof (sin_cos_unit a) as Ha.
  pose proof (sin_cos_unit b) as Hb.
  pose proof (sin_cos_unit g) as Hg.
  destruct p as [x y z].
  unfold axis_rotate, transpose, rot_mat, dot, col0, col1, col2; simpl.
  set (sa := sin a) in *. set (ca := cos a) in *.
  set (sb := sin b) in *. set (cb := cos b) in *.
  set (sg := sin g) in *. set (cg := cos g) in *.
  split; f_equal; nsatz.
Qed.

(** X6: the matrix built from any three angles has determinant 1: it is a
    proper rotation and never a reflection. *)
Theorem rot_mat_det_1 (a b g : R) : det (rot_mat a b g) = 1.
Proof.
  pose proof (sin_cos_unit a) as Ha.
  pose proof (sin_cos_unit b) as Hb.
  pose proof (sin_cos_unit g) as Hg.
  unfold det, rot_mat; simpl.
  set (sa := sin a) in *. set (ca := cos a) in *.
  set (sb := sin b) in *. set (cb := cos b) in *.
  set (sg := sin g) in *. set (cg := cos g) in *.
  nsatz.
Qed.

(** X7: with only one angle different from 0 the matrix is the rotation
    about the corresponding axis: alpha about x, beta about y, gamma
    about z. *)
Theorem rot_mat_single_axis (t : R) :
  rot_mat t 0 0 = Rx t /\ rot_mat 0 t 0 = Ry t /\ rot_mat 0 0 t = Rz t.
Proof.
  unfold rot_mat, Rx, Ry, Rz. rewrite cos_0, sin_0.
  repeat split; f_equal; f_equal; ring.
Qed.

Lemma cos_add_2PI (t : R) : cos (t + 2 * PI) = cos t.
Proof.
  replace (t + 2 * PI) with (t + 2 * INR 1 * PI) by (simpl; ring).
  apply cos_period.
Qed.

Lemma sin_add_2PI (t : R) : sin (t + 2 * PI) = sin t.
Proof.
  replace (t + 2 * PI) with (t + 2 * INR 1 * PI) by (simpl; ring).
  apply sin_period.
Qed.

(** X8: the matrix is 2 PI periodic in each of the three angles: a whole
    turn added to alpha, beta or gamma does not change it. *)
Theorem rot_mat_periodic (a b g : R) :
  rot_mat (a + 2 * PI) b g = rot_mat a b g /\
  rot_mat a (b + 2 * PI) g = rot_mat a b g /\
  rot_mat a b (g + 2 * PI) = rot_mat a b g.
Proof.
  unfold rot_mat. rewrite !cos_add_2PI, !sin_add_2PI. repeat split.
Qed.

Lemma rotated_z_ignores_gamma (a b g g' : R) (p : Point3D) :
  pz (axis_rotate p (rot_mat a b g)) = pz (axis_rotate p (rot_mat a b g')).
Proof. reflexivity. Qed.

Lemma get_pix_on_img_row (p : Point3D) (r : R) (h_img w_img : Z) :
  0 < r -> (0 < h_img)%Z -> (0 < w_img)%Z -> - r <= pz p ->
  get_pix_on_img p r h_img w_img =
  Ok (Z.modulo (round (acos (Rmin (pz p) r / r) / PI * IZR h_img)) h_img,
      spec_col (px p) (py p) w_img).
Proof.
  intros Hr Hh Hw Hz.
  now rewrite get_pix_on_img_spec, spec_mapper_ok by assumption.
Qed.

(** X9: the source row of an output pixel does not depend on gamma: the
    rotation about the z axis moves a pixel along its row of the source
    image only. *)
Theorem projection_row_ignores_gamma (ov oh a b g g' : R) (pix_proj : Z * Z)
    (r : R) (h_img w_img h_proj w_proj : Z) :
  0 < r -> (0 < h_img)%Z -> (0 < w_img)%Z ->
  exists row col col' : Z,
    projection ov oh (rot_mat a b g) pix_proj r h_img w_img h_proj w_proj
    = Ok (row, col) /\
    projection ov oh (rot_mat a b g') pix_proj r h_img w_img h_proj w_proj
    = Ok (row, col').
Proof.
  intros Hr Hh Hw. destruct pix_proj as [i j].
  rewrite !projection_unfold. unfold pipeline_from_plane.
  rewrite get_point_on_sphere_ok by exact Hr. simpl.
  set (P := mkPoint _ _ _).
  assert (Hz : forall t, - r <= pz (axis_rotate P (rot_mat a b t))).
  { intros t. apply rotated_sphere_point_z. exact Hr. }
  rewrite !get_pix_on_img_row by (assumption || apply Hz).
  rewrite (rotated_z_ignores_gamma a b g' g P).
  eexists _, _, _. split; reflexivity.
Qed.

(** ** Sphere-to-Image Mapper: clamp, failures, homogeneity, wrap-around *)

(** X10: for r > 0 and positive dimensions every point with z >= r is
    clamped to the north pole row: the mapper returns row 0. *)
Theorem get_pix_on_img_clamps_to_row_0 (x y z r : R) (h_img w_img : Z) :
  0 < r -> (0 < h_img)%Z -> (0 < w_img)%Z -> r <= z ->
  get_pix_on_img (mkPoint x y z) r h_img w_img
  = Ok (0%Z, spec_col x y w_img).
Proof.
  intros Hr Hh Hw Hz.
  rewrite get_pix_on_img_row by (simpl; lra || assumption). simpl.
  rewrite Rmin_right by exact Hz.
  replace (r / r) with 1 by (field; lra).
  rewrite acos_1.
  replace (0 / PI * IZR h_img) with (IZR 0) by (field; apply PI_neq0).
  rewrite round_IZR, Z.mod_0_l by lia. reflexivity.
Qed.

(** X11: for r > 0 and positive dimensions the mapper returns a pixel of
    the source for every point, and never raises.  [np.arccos] receives an
    argument outside [-1, 1], and yields [nan], exactly for the points with
    z < -r; the row is then the integer conversion of [nan] modulo
    h_img. *)
Theorem get_pix_on_img_nan_iff (p : Point3D) (r : R) (h_img w_img : Z) :
  0 < r -> (0 < h_img)%Z -> (0 < w_img)%Z ->
  (arccos ((if Rlt_dec r (pz p) then r else pz p) / r) = NaN <->
   pz p < - r) /\
  (pz p < - r ->
   get_pix_on_img p r h_img w_img
   = Ok (Z.modulo nan_to_int h_img, spec_col (px p) (py p) w_img)) /\
  (exists pix, get_pix_on_img p r h_img w_img = Ok pix /\
               in_bounds pix h_img w_img).
Proof.
  intros Hr Hh Hw. rewrite clamp_is_Rmin.
  split; [| split].
  - destruct (Rlt_dec (pz p) (- r)) as [Hlt | Hge].
    + rewrite arccos_below by (now apply clamped_ratio_lt_m1).
      split; intros _; [exact Hlt | reflexivity].
    + apply Rnot_lt_le in Hge.
      rewrite arccos_ok
        by (split; [now apply clamped_ratio_ge_m1
                   | now apply clamped_ratio_le_1]).
      split; intros H; [discriminate H | lra].
  - intros Hlt. rewrite get_pix_on_img_spec by assumption.
    unfold spec_mapper, spec_row.
    rewrite arccos_below by (now apply clamped_ratio_lt_m1).
    reflexivity.
  - now apply get_pix_on_img_always_in_bounds.
Qed.

(** X12: division by zero in the mapper.  With r = 0 it raises
    ZeroDivisionError for every point and all dimensions; with r > 0 and a
    point with z >= -r it raises ZeroDivisionError when h_img = 0, and when
    w_img = 0 with h_img <> 0. *)
Theorem get_pix_on_img_zero_division (p : Point3D) (r : R) (h_img w_img : Z) :
  get_pix_on_img p 0 h_img w_img = Err ZeroDivisionError /\
  (0 < r -> - r <= pz p ->
   get_pix_on_img p r 0 w_img = Err ZeroDivisionError /\
   (h_img <> 0%Z -> get_pix_on_img p r h_img 0 = Err ZeroDivisionError)).
Proof.
  split.
  - unfold get_pix_on_img, fdiv.
    destruct (Req_dec_T 0 0) as [_ | N]; [reflexivity | now elim N].
  - intros Hr Hz.
    assert (Hq : -1 <= Rmin (pz p) r / r <= 1)
      by (split; [now apply clamped_ratio_ge_m1 | now apply clamped_ratio_le_1]).
    unfold get_pix_on_img.
    rewrite clamp_is_Rmin, fdiv_ok by lra. simpl.
    rewrite arccos_ok by exact Hq. simpl.
    split; [reflexivity |].
    intros Hh. unfold imod at 1.
    destruct (Z.eqb_spec h_img 0) as [E | _]; [contradiction | reflexivity].
Qed.

Lemma arctan2_scale (t x y : R) :
  0 < t -> arctan2 (t * y) (t * x) = arctan2 y x.
Proof.
  intros Ht. unfold arctan2.
  assert (Hdiv : x <> 0 -> t * y / (t * x) = y / x)
    by (intros Hx; field; split; lra).
  destruct (Rlt_dec 0 x) as [Hx | Hx].
  - destruct (Rlt_dec 0 (t * x)) as [_ | N]; [| exfalso; apply N; nra].
    rewrite Hdiv by lra. reflexivity.
  - destruct (Rlt_dec 0 (t * x)) as [N | _]; [exfalso; nra |].
    destruct (Rlt_dec x 0) as [Hx' | Hx'].
    + destruct (Rlt_dec (t * x) 0) as [_ | N]; [| exfalso; apply N; nra].
      rewrite Hdiv by lra.
      destruct (Rle_dec 0 y) as [Hy | Hy];
        destruct (Rle_dec 0 (t * y)) as [Hy' | Hy']; try reflexivity.
      * exfalso. apply Hy'. nra.
      * exfalso. apply Hy. nra.
    + destruct (Rlt_dec (t * x) 0) as [N | _]; [exfalso; nra |].
      destruct (Rlt_dec 0 y) as [Hy | Hy].
      * destruct (Rlt_dec 0 (t * y)) as [_ | N]; [reflexivity |].
        exfalso. apply N. nra.
      * destruct (Rlt_dec 0 (t * y)) as [N | _]; [exfalso; nra |].
        destruct (Rlt_dec y 0) as [Hy' | Hy'].
        -- destruct (Rlt_dec (t * y) 0) as [_ | N]; [reflexivity |].
           exfalso. apply N. nra.
        -- destruct (Rlt_dec (t * y) 0) as [N | _]; [exfalso; nra |].
           reflexivity.
Qed.

(** X13: the mapper is homogeneous: scaling the point and the radius by the
    same factor t > 0 does not change its result, failures included. *)
Theorem get_pix_on_img_homogeneous (t : R) (p : Point3D) (r : R)
    (h_img w_img : Z) :
  0 < t ->
  get_pix_on_img (scale_point t p) (t * r) h_img w_img
  = get_pix_on_img p r h_img w_img.
Proof.
  intros Ht. unfold get_pix_on_img, scale_point; simpl.
  rewrite arctan2_scale by exact Ht.
  assert (Eq : fdiv (if Rlt_dec (t * r) (t * pz p) then t * r else t * pz p)
                    (t * r)
               = fdiv (if Rlt_dec r (pz p) then r else pz p) r).
  { unfold fdiv.
    destruct (Req_dec_T r 0) as [Z | NZ].
    - destruct (Req_dec_T (t * r) 0) as [_ | N]; [reflexivity |].
      exfalso. apply N. rewrite Z. ring.
    - destruct (Req_dec_T (t * r) 0) as [Z | _].
      + exfalso. apply Rmult_integral in Z. destruct Z; lra.
      + f_equal.
        destruct (Rlt_dec r (pz p)) as [H | H];
          destruct (Rlt_dec (t * r) (t * pz p)) as [H' | H'].
        * field. split; lra.
        * exfalso. apply H'. now apply Rmult_lt_compat_l.
        * exfalso. apply H. now apply (Rmult_lt_reg_l t).
        * field. split; lra. }
  rewrite Eq. reflexivity.
Qed.

Lemma round_neighbours (t : R) :
  round t = Int_part t \/ round t = (Int_part t + 1)%Z.
Proof.
  unfold round.
  destruct (Rlt_dec (t - IZR (Int_part t)) (1 / 2)); [now left |].
  destruct (Rlt_dec (1 / 2) (t - IZR (Int_part t))); [now right |].
  destruct (Z.even (Int_part t)); [now left | now right].
Qed.

Lemma round_bounds (t : R) (n : Z) :
  0 <= t <= IZR n -> (0 <= round t <= n)%Z.
Proof.
  intros [H0 Hn].
  destruct (Req_dec_T t (IZR n)) as [E | NE].
  - subst t. rewrite round_IZR. split; [| lia].
    apply le_IZR. exact H0.
  - destruct (base_Int_part t) as [Hlo Hhi].
    assert (Hf0 : (-1 < Int_part t)%Z) by (apply lt_IZR; lra).
    assert (Hfn : (Int_part t < n)%Z) by (apply lt_IZR; lra).
    destruct (round_neighbours t) as [-> | ->]; lia.
Qed.

Lemma arctan2_bounds (y x : R) : - PI < arctan2 y x <= PI.
Proof.
  pose proof PI_RGT_0 as Hpi.
  pose proof (atan_bound (y / x)) as [Hlo Hhi].
  unfold arctan2.
  destruct (Rlt_dec 0 x) as [Hx | Hx]; [lra |].
  destruct (Rlt_dec x 0) as [Hx' | Hx'].
  - destruct (Rle_dec 0 y) as [Hy | Hy].
    + assert (Hq : y / x <= 0).
      { destruct Hy as [Hy | <-].
        - left. apply Rdiv_pos_neg; lra.
        - right. unfold Rdiv. ring. }
      assert (atan (y / x) <= 0).
      { destruct Hq as [Hq | Hq].
        - left. rewrite <- atan_0. now apply atan_increasing.
        - rewrite Hq, atan_0. lra. }
      lra.
    + assert (Hq : 0 < y / x) by (apply Rdiv_neg_neg; lra).
      assert (0 < atan (y / x))
        by (rewrite <- atan_0; now apply atan_increasing).
      lra.
  - destruct (Rlt_dec 0 y); [lra |].
    destruct (Rlt_dec y 0); lra.
Qed.

Lemma col_fraction_bounds (y x : R) (w_img : Z) :
  (0 < w_img)%Z ->
  0 <= (arctan2 y x / 2 / PI + 1 / 2) * IZR w_img <= IZR w_img.
Proof.
  intros Hw. pose proof PI_RGT_0 as Hpi.
  pose proof (arctan2_bounds y x) as [Hlo Hhi].
  assert (Hw' : 0 < IZR w_img) by (apply IZR_lt; lia).
  set (a := arctan2 y x) in *.
  assert (Hf : 0 <= a / 2 / PI + 1 / 2 <= 1).
  { replace (a / 2 / PI + 1 / 2) with ((a + PI) / (2 * PI)) by (field; lra).
    split.
    - apply Rle_mult_inv_pos; lra.
    - apply (Rmult_le_reg_r (2 * PI)); [lra |].
      replace ((a + PI) / (2 * PI) * (2 * PI)) with (a + PI) by (field; lra).
      lra. }
  split; [apply Rmult_le_pos; lra |].
  rewrite <- (Rmult_1_l (IZR w_img)) at 2.
  apply Rmult_le_compat_r; lra.
Qed.

Lemma row_fraction_bounds (q : R) (h_img : Z) :
  (0 < h_img)%Z -> 0 <= acos q / PI * IZR h_img <= IZR h_img.
Proof.
  intros Hh. pose proof PI_RGT_0 as Hpi.
  pose proof (acos_bound q) as [Hlo Hhi].
  assert (Hh' : 0 < IZR h_img) by (apply IZR_lt; lia).
  assert (Hf : 0 <= acos q / PI <= 1).
  { split.
    - apply Rle_mult_inv_pos; lra.
    - apply (Rmult_le_reg_r PI); [lra |].
      replace (acos q / PI * PI) with (acos q) by (field; lra). lra. }
  split; [apply Rmult_le_pos; lra |].
  rewrite <- (Rmult_1_l (IZR h_img)) at 2.
  apply Rmult_le_compat_r; lra.
Qed.

Lemma mod_wraps_top_only (a n : Z) :
  (0 <= a <= n)%Z -> (0 < n)%Z ->
  Z.modulo a n = if Z.eqb a n then 0%Z else a.
Proof.
  intros Ha Hn. destruct (Z.eqb_spec a n) as [-> | NE].
  - apply Z_mod_same_full.
  - apply Z.mod_small. lia.
Qed.

(** X14: for r > 0, positive dimensions and z >= -r the rounded values
    before the modulo lie in [0, h_img] and [0, w_img]; the modulo wraps
    only the top value h_img (w_img) to 0 and leaves every other value as
    it is. *)
Theorem get_pix_on_img_wraps_top_only (x y z r : R) (h_img w_img : Z) :
  0 < r -> (0 < h_img)%Z -> (0 < w_img)%Z -> - r <= z ->
  let R0 := round (acos ((if Rlt_dec r z then r else z) / r) / PI
                   * IZR h_img) in
  let C0 := round ((arctan2 y x / 2 / PI + 1 / 2) * IZR w_img) in
  (0 <= R0 <= h_img)%Z /\ (0 <= C0 <= w_img)%Z /\
  get_pix_on_img (mkPoint x y z) r h_img w_img
  = Ok (if Z.eqb R0 h_img then 0%Z else R0,
        if Z.eqb C0 w_img then 0%Z else C0).
Proof.
  intros Hr Hh Hw Hz R0 C0.
  assert (HR : (0 <= R0 <= h_img)%Z)
    by (apply round_bounds, row_fraction_bounds; exact Hh).
  assert (HC : (0 <= C0 <= w_img)%Z)
    by (apply round_bounds, col_fraction_bounds; exact Hw).
  split; [exact HR |]. split; [exact HC |].
  assert (Hq : -1 <= Rmin z r / r <= 1)
    by (split; [now apply clamped_ratio_ge_m1 | now apply clamped_ratio_le_1]).
  rewrite <- clamp_is_Rmin in Hq.
  unfold get_pix_on_img; simpl.
  rewrite fdiv_ok by lra. simpl.
  rewrite arccos_ok by exact Hq. simpl.
  rewrite !imod_ok by assumption. simpl.
  fold R0. fold C0.
  rewrite (mod_wraps_top_only R0 h_img HR Hh).
  rewrite (mod_wraps_top_only C0 w_img HC Hw).
  reflexivity.
Qed.

(** ** Projection: panning *)

(** X15: raising offset_ver by 1 / h_proj gives the pixel (row, col) the
    source pixel (row + 1, col) had, and raising offset_hor by
    1 / w_proj that of (row, col + 1): the offsets pan the output window
    over the plane. *)
Theorem projection_offset_pans (ov oh : R) (M : Mat3) (row col : Z) (r : R)
    (h_img w_img h_proj w_proj : Z) :
  h_proj <> 0%Z -> w_proj <> 0%Z ->
  projection (ov + 1 / IZR h_proj) oh M (row, col) r
             h_img w_img h_proj w_proj
  = projection ov oh M (row + 1, col)%Z r h_img w_img h_proj w_proj /\
  projection ov (oh + 1 / IZR w_proj) M (row, col) r
             h_img w_img h_proj w_proj
  = projection ov oh M (row, col + 1)%Z r h_img w_img h_proj w_proj.
Proof.
  intros Hh Hw.
  assert (Hh' : IZR h_proj <> 0) by (apply not_0_IZR; exact Hh).
  assert (Hw' : IZR w_proj <> 0) by (apply not_0_IZR; exact Hw).
  rewrite !projection_unfold, !plus_IZR. split; f_equal; field; assumption.
Qed.

(** ** Sampler/Driver: order, initial content, progress, failures *)

Lemma img_get_nat (arr : Image) (h w : nat) (i j : nat) :
  rectangular arr h w -> (i < h)%nat -> (j < w)%nat ->
  exists line c,
    nth_error arr i = Some line /\ nth_error line j = Some c /\
    img_get arr (Z.of_nat i, Z.of_nat j) = Ok c.
Proof.
  intros Hrect Hi Hj.
  destruct (rectangular_row arr h w i Hrect Hi) as [line [E Hl]].
  destruct (nth_error line j) as [c |] eqn:Ec;
    [| apply nth_error_None in Ec; lia].
  exists line, c. split; [exact E |]. split; [exact Ec |].
  destruct Hrect as [Hlen _]. unfold img_get.
  rewrite norm_index_in_range by lia. simpl.
  rewrite Nat2Z.id, E.
  rewrite norm_index_in_range by lia. simpl.
  now rewrite Nat2Z.id, Ec.
Qed.

Lemma image_ext (A B : Image) (h w : nat) :
  rectangular A h w -> rectangular B h w ->
  (forall p, in_bounds p (Z.of_nat h) (Z.of_nat w) ->
             img_get A p = img_get B p) ->
  A = B.
Proof.
  intros HA HB Hext.
  apply nth_error_ext. intros i.
  destruct (Nat.lt_ge_cases i h) as [Hi | Hi].
  - destruct (rectangular_row A h w i HA Hi) as [la [Ea Hla]].
    destruct (rectangular_row B h w i HB Hi) as [lb [Eb Hlb]].
    rewrite Ea, Eb. f_equal.
    apply nth_error_ext. intros j.
    destruct (Nat.lt_ge_cases j w) as [Hj | Hj].
    + destruct (img_get_nat A h w i j HA Hi Hj) as [la' [ca [Ea' [Eca Ga]]]].
      destruct (img_get_nat B h w i j HB Hi Hj) as [lb' [cb [Eb' [Ecb Gb]]]].
      assert (la' = la) by congruence. assert (lb' = lb) by congruence.
      subst la' lb'.
      rewrite Eca, Ecb. f_equal.
      assert (E : img_get A (Z.of_nat i, Z.of_nat j)
                  = img_get B (Z.of_nat i, Z.of_nat j)).
      { apply Hext. unfold in_bounds; simpl. lia. }
      rewrite Ga, Gb in E. now injection E.
    + transitivity (@None RGB);
        [| symmetry]; apply nth_error_None; lia.
  - destruct HA as [HlA _], HB as [HlB _].
    transitivity (@None (list RGB));
      [| symmetry]; apply nth_error_None; lia.
Qed.

Section SamplerOrder.

Variables (ov oh a b g r : R).
Variables (arr_img : Image) (h_img w_img : nat) (h_proj w_proj : Z).
Variables (h_buf w_buf : nat).

Hypothesis r_pos : 0 < r.
Hypothesis src_rect : rectangular arr_img h_img w_img.
Hypothesis h_img_pos : (0 < h_img)%nat.
Hypothesis w_img_pos : (0 < w_img)%nat.

Lemma sample_loop_covering_unique (pixels pixels' : list (Z * Z))
    (buf buf' : Image) :
  NoDup pixels -> NoDup pixels' ->
  (forall p, In p pixels <->
             in_bounds p (Z.of_nat h_buf) (Z.of_nat w_buf)) ->
  (forall p, In p pixels' <->
             in_bounds p (Z.of_nat h_buf) (Z.of_nat w_buf)) ->
  rectangular buf h_buf w_buf -> rectangular buf' h_buf w_buf ->
  exists out,
    sample_loop ov oh (rot_mat a b g) arr_img r (Z.of_nat h_img)
                (Z.of_nat w_img) h_proj w_proj pixels buf = Ok out /\
    sample_loop ov oh (rot_mat a b g) arr_img r (Z.of_nat h_img)
                (Z.of_nat w_img) h_proj w_proj pixels' buf' = Ok out.
Proof.
  intros Hnd Hnd' Hcov Hcov' Hbuf Hbuf'.
  destruct (sample_loop_ok ov oh a b g r arr_img h_img w_img h_proj w_proj
              h_buf w_buf r_pos src_rect h_img_pos w_img_pos
              pixels buf Hnd (fun p Hp => proj1 (Hcov p) Hp) Hbuf)
    as [out [E [Hout [Hdone _]]]].
  destruct (sample_loop_ok ov oh a b g r arr_img h_img w_img h_proj w_proj
              h_buf w_buf r_pos src_rect h_img_pos w_img_pos
              pixels' buf' Hnd' (fun p Hp => proj1 (Hcov' p) Hp) Hbuf')
    as [out' [E' [Hout' [Hdone' _]]]].
  exists out. split; [exact E |].
  rewrite E'. f_equal.
  apply (image_ext out' out h_buf w_buf Hout' Hout).
  intros p Hp.
  destruct (Hdone p (proj2 (Hcov p) Hp)) as [pix [Ep [Eg _]]].
  destruct (Hdone' p (proj2 (Hcov' p) Hp)) as [pix' [Ep' [Eg' _]]].
  rewrite Eg, Eg'. congruence.
Qed.

End SamplerOrder.

Lemma ndindex_covers (h w : nat) (p : Z * Z) :
  In p (ndindex h w) <-> in_bounds p (Z.of_nat h) (Z.of_nat w).
Proof. destruct p as [i j]. apply in_ndindex. Qed.

(** X16: the order of the visit does not matter.  For r > 0 and a
    rectangular, non-empty source, the loop run over any duplicate-free
    list that holds exactly the coordinates of the output buffer ends with
    the same buffer as the row-major visit. *)
Theorem sample_loop_order_irrelevant (ov oh a b g r : R) (arr_img : Image)
    (h_img w_img : nat) (h_proj w_proj : Z) (h_buf w_buf : nat)
    (pixels : list (Z * Z)) (buf : Image) :
  0 < r -> rectangular arr_img h_img w_img ->
  (0 < h_img)%nat -> (0 < w_img)%nat ->
  rectangular buf h_buf w_buf ->
  NoDup pixels ->
  (forall p, In p pixels <->
             in_bounds p (Z.of_nat h_buf) (Z.of_nat w_buf)) ->
  exists out,
    sample_loop ov oh (rot_mat a b g) arr_img r (Z.of_nat h_img)
                (Z.of_nat w_img) h_proj w_proj (ndindex h_buf w_buf) buf
    = Ok out /\
    sample_loop ov oh (rot_mat a b g) arr_img r (Z.of_nat h_img)
                (Z.of_nat w_img) h_proj w_proj pixels buf = Ok out.
Proof.
  intros Hr Hsrc Hh Hw Hbuf Hnd Hcov.
  apply (sample_loop_covering_unique ov oh a b g r arr_img h_img w_img
           h_proj w_proj h_buf w_buf Hr Hsrc Hh Hw);
    try assumption.
  - apply NoDup_ndindex.
  - apply ndindex_covers.
Qed.

(** X17: every pixel of the output buffer is overwritten.  For r > 0 and a
    rectangular, non-empty source, the loop over all coordinates ends with
    the same buffer whatever the buffer of that shape held before. *)
Theorem sample_loop_overwrites_everything (ov oh a b g r : R)
    (arr_img : Image) (h_img w_img : nat) (h_proj w_proj : Z)
    (h_buf w_buf : nat) (buf buf' : Image) :
  0 < r -> rectangular arr_img h_img w_img ->
  (0 < h_img)%nat -> (0 < w_img)%nat ->
  rectangular buf h_buf w_buf -> rectangular buf' h_buf w_buf ->
  exists out,
    sample_loop ov oh (rot_mat a b g) arr_img r (Z.of_nat h_img)
                (Z.of_nat w_img) h_proj w_proj (ndindex h_buf w_buf) buf
    = Ok out /\
    sample_loop ov oh (rot_mat a b g) arr_img r (Z.of_nat h_img)
                (Z.of_nat w_img) h_proj w_proj (ndindex h_buf w_buf) buf'
    = Ok out.
Proof.
  intros Hr Hsrc Hh Hw Hbuf Hbuf'.
  apply (sample_loop_covering_unique ov oh a b g r arr_img h_img w_img
           h_proj w_proj h_buf w_buf Hr Hsrc Hh Hw);
    try assumption;
    try apply NoDup_ndindex; apply ndindex_covers.
Qed.

Lemma projection_zero_radius (ov oh : R) (M : Mat3) (pix_proj : Z * Z)
    (h_img w_img h_proj w_proj : Z) :
  projection ov oh M pix_proj 0 h_img w_img h_proj w_proj
  = Err ZeroDivisionError.
Proof.
  destruct pix_proj as [row col]. rewrite projection_unfold.
  unfold pipeline_from_plane.
  destruct (get_point_on_sphere _ 0) as [P | e] eqn:E; simpl.
  - apply get_pix_on_img_zero_division; exact 0.
  - unfold get_point_on_sphere, fdiv in E.
    destruct (Req_dec_T _ 0); simpl in E; [| discriminate E].
    now injection E as <-.
Qed.

Lemma ndindex_head (h w : nat) :
  (0 < h)%nat -> (0 < w)%nat ->
  exists rest, ndindex h w = (0, 0)%Z :: rest.
Proof.
  intros Hh Hw. destruct h as [| h]; [lia |]. destruct w as [| w]; [lia |].
  unfold ndindex. simpl. eexists. reflexivity.
Qed.

Lemma ndindex_empty (h w : nat) : h = O \/ w = O -> ndindex h w = [].
Proof.
  intros [-> | ->]; [reflexivity |].
  unfold ndindex. simpl. induction (seq 0 h); simpl; auto.
Qed.

Lemma length_ndindex (h w : nat) : length (ndindex h w) = (h * w)%nat.
Proof.
  unfold ndindex. generalize 0%nat at 2.
  induction h as [| h IH]; intros s; simpl; [reflexivity |].
  now rewrite length_app, length_map, length_seq, IH.
Qed.

(** X18: when the output size is taken from the configuration, a negative
    height or width makes the run fail with ValueError before any pixel is
    computed. *)
Theorem run_negative_size_fails (cfg : Config) (arr_img : Image) :
  prevent_scaling cfg = false ->
  (h_proj0 cfg < 0)%Z \/ (w_proj0 cfg < 0)%Z ->
  run cfg arr_img = Err ValueError.
Proof.
  intros Hps Hneg. unfold run, zeros. rewrite Hps.
  destruct (Z.ltb_spec (h_proj0 cfg) 0) as [_ | Hh]; [reflexivity |].
  destruct (Z.ltb_spec (w_proj0 cfg) 0) as [_ | Hw]; [reflexivity |].
  lia.
Qed.

(** X19: a scale of 0 gives radius 0, and then the run of a non-empty
    output fails with ZeroDivisionError at its first pixel, whatever the
    source, the offsets and the angles are. *)
Theorem run_zero_scale_fails (cfg : Config) (arr_img : Image) :
  scale cfg = 0 ->
  (0 < out_height cfg (Z.of_nat (fst (shape arr_img))))%Z ->
  (0 < out_width cfg (Z.of_nat (snd (shape arr_img))))%Z ->
  run cfg arr_img = Err ZeroDivisionError.
Proof.
  intros Hs Hh Hw. unfold run.
  fold (out_height cfg (Z.of_nat (fst (shape arr_img)))).
  fold (out_width cfg (Z.of_nat (snd (shape arr_img)))).
  set (h := out_height cfg (Z.of_nat (fst (shape arr_img)))) in *.
  set (w := out_width cfg (Z.of_nat (snd (shape arr_img)))) in *.
  destruct (zeros_ok h w) as [blank [Ez _]]; [lia | lia |].
  rewrite Ez; simpl.
  destruct (ndindex_head (Z.to_nat h) (Z.to_nat w)) as [rest Ei];
    [lia | lia |].
  rewrite Ei, Hs. simpl. unfold sample_step.
  replace (IZR (Z.min h w) / 10 * 0) with 0 by ring.
  now rewrite projection_zero_radius.
Qed.

(** X20: an output of height 0 or width 0 is returned as allocated: the
    loop body never runs, so no projection, source read or division takes
    place, whatever the scale and the source are. *)
Theorem run_empty_output (cfg : Config) (arr_img : Image) :
  let h := out_height cfg (Z.of_nat (fst (shape arr_img))) in
  let w := out_width cfg (Z.of_nat (snd (shape arr_img))) in
  (0 <= h)%Z -> (0 <= w)%Z -> h = 0%Z \/ w = 0%Z ->
  run cfg arr_img = Ok (repeat (repeat (mkRGB 0 0 0) (Z.to_nat w)) (Z.to_nat h)).
Proof.
  intros h w Hh Hw Hzero. unfold run.
  fold (out_height cfg (Z.of_nat (fst (shape arr_img)))).
  fold (out_width cfg (Z.of_nat (snd (shape arr_img)))).
  fold h. fold w.
  unfold zeros.
  destruct (Z.ltb_spec h 0); [lia |].
  destruct (Z.ltb_spec w 0); [lia |]. simpl.
  rewrite ndindex_empty by lia. reflexivity.
Qed.

Lemma sample_loop_progress_spec (ov oh : R) (M : Mat3) (arr_img : Image)
    (r : R) (h_img w_img h_proj w_proj : Z) (pixels : list (Z * Z)) :
  forall (buf : Image) (n : nat),
    sample_loop_progress ov oh M arr_img r h_img w_img h_proj w_proj
                         pixels buf n
    = let* out := sample_loop ov oh M arr_img r h_img w_img h_proj w_proj
                              pixels buf in
      Ok (out, (n + length pixels)%nat).
Proof.
  induction pixels as [| p rest IH]; intros buf n; simpl.
  - now rewrite Nat.add_0_r.
  - destruct (sample_step ov oh M arr_img r h_img w_img h_proj w_proj buf p)
      as [buf' | e]; simpl; [| reflexivity].
    rewrite IH. now rewrite Nat.add_succ_r.
Qed.

(** X21: the progress task, announced with total h_proj * w_proj and
    advanced by one per pixel, stands at exactly that total when the loop
    over the coordinates of an h x w buffer ends without error, and the
    buffer is the one the loop computes; if the loop fails, so does the
    loop with progress, with the same error. *)
Theorem sample_loop_progress_reaches_total (ov oh : R) (M : Mat3)
    (arr_img : Image) (r : R) (h_img w_img h_proj w_proj : Z)
    (h w : nat) (buf : Image) :
  sample_loop_progress ov oh M arr_img r h_img w_img h_proj w_proj
                       (ndindex h w) buf 0
  = match sample_loop ov oh M arr_img r h_img w_img h_proj w_proj
                      (ndindex h w) buf with
    | Ok out => Ok (out, (h * w)%nat)
    | Err e => Err e
    end.
Proof.
  rewrite sample_loop_progress_spec, length_ndindex. reflexivity.
Qed.

(** ** Buffer access, negative radius, symmetry about the axis, the seam *)

(** X22: on a buffer of shape (h, w, 3) and a coordinate inside it, writing
    a color succeeds, keeps the shape, is read back by the same coordinate,
    and leaves every other coordinate of the buffer as it was. *)
Theorem img_set_then_get (arr : Image) (h w : nat) (pix : Z * Z) (c : RGB) :
  rectangular arr h w -> in_bounds pix (Z.of_nat h) (Z.of_nat w) ->
  exists arr' : Image,
    img_set arr pix c = Ok arr' /\
    rectangular arr' h w /\
    img_get arr' pix = Ok c /\
    forall q : Z * Z,
      in_bounds q (Z.of_nat h) (Z.of_nat w) -> q <> pix ->
      img_get arr' q = img_get arr q.
Proof. intros Hrect Hin. now apply img_set_ok. Qed.

Lemma img_set_then_get_witness :
  exists arr' : Image,
    img_set tiny_img (1, 0)%Z (mkRGB 9 9 9) = Ok arr' /\
    rectangular arr' 2 2 /\
    img_get arr' (1, 0)%Z = Ok (mkRGB 9 9 9) /\
    forall q : Z * Z,
      in_bounds q (Z.of_nat 2) (Z.of_nat 2) -> q <> (1, 0)%Z ->
      img_get arr' q = img_get tiny_img q.
Proof.
  apply (img_set_then_get tiny_img 2 2 (1, 0)%Z (mkRGB 9 9 9)).
  - split; [reflexivity | repeat constructor].
  - unfold in_bounds; simpl. lia.
Defined.

Lemma arccos_above (t : R) : 1 < t -> arccos t = NaN.
Proof.
  intros H. unfold arccos.
  destruct (Rle_dec (-1) t) as [_ | _]; [| reflexivity].
  destruct (Rle_dec t 1) as [N | _]; [lra | reflexivity].
Qed.

(** X23: with a negative radius the mapper degenerates.  Every point with
    z >= r is clamped to r and gets row 0; for every point with z < r the
    quotient z / r exceeds 1, [np.arccos] yields [nan], and the row is the
    integer conversion of [nan] modulo h_img.  In both cases a pixel is
    returned. *)
Theorem get_pix_on_img_negative_radius (x y z r : R) (h_img w_img : Z) :
  r < 0 -> (0 < h_img)%Z -> (0 < w_img)%Z ->
  get_pix_on_img (mkPoint x y z) r h_img w_img
  = Ok (if Rle_dec r z then 0%Z else Z.modulo nan_to_int h_img,
        spec_col x y w_img).
Proof.
  intros Hr Hh Hw. unfold get_pix_on_img; simpl.
  rewrite fdiv_ok by lra. simpl.
  assert (Ecol : arctan2 y x / 2 / PI = arctan2 y x / (2 * PI))
    by (field; apply PI_neq0).
  destruct (Rle_dec r z) as [Hz | Hz].
  - assert (E : (if Rlt_dec r z then r else z) / r = 1).
    { destruct (Rlt_dec r z) as [_ | N].
      - field. lra.
      - assert (z = r) by lra. subst z. field. lra. }
    rewrite E, arccos_ok by lra. simpl. rewrite acos_1.
    replace (0 / PI * IZR h_img) with (IZR 0) by (field; apply PI_neq0).
    rewrite round_IZR, !imod_ok by assumption. simpl.
    rewrite Z.mod_0_l by lia. unfold spec_col. now rewrite Ecol.
  - apply Rnot_le_lt in Hz.
    destruct (Rlt_dec r z) as [N | _]; [lra |].
    rewrite arccos_above.
    + simpl. rewrite !imod_ok by assumption. simpl.
      unfold spec_col. now rewrite Ecol.
    + apply (Rmult_lt_reg_r (- r)); [lra |].
      replace (z / r * - r) with (- z) by (field; lra). lra.
Qed.

(** X24: the intersector commutes with the rotation about the z axis: for
    r > 0, turning a plane point by gamma and intersecting gives the
    intersection point turned by gamma. *)
Theorem get_point_on_sphere_commutes_with_z_rotation (g x y r : R) :
  0 < r ->
  exists P : Point3D,
    get_point_on_sphere (mkPoint x y 0) r = Ok P /\
    get_point_on_sphere (axis_rotate (mkPoint x y 0) (rot_mat 0 0 g)) r
    = Ok (axis_rotate P (rot_mat 0 0 g)).
Proof.
  intros Hr. eexists.
  split; [apply get_point_on_sphere_ok; exact Hr |].
  rewrite get_point_on_sphere_ok by exact Hr.
  pose proof (sin_cos_unit g) as Hg.
  unfold axis_rotate, rot_mat, dot; simpl. rewrite cos_0, sin_0.
  set (x' := cos g * 1 * x + _ * y + _ * 0).
  set (y' := sin g * 1 * x + _ * y + _ * 0).
  assert (Ex : x' = cos g * x - sin g * y) by (unfold x'; ring).
  assert (Ey : y' = sin g * x + cos g * y) by (unfold y'; ring).
  assert (Ek : k_coeff x' y' r = k_coeff x y r).
  { unfold k_coeff.
    replace (x' ^ 2 + y' ^ 2 + r ^ 2) with (x ^ 2 + y ^ 2 + r ^ 2);
      [reflexivity |].
    rewrite Ex, Ey.
    transitivity ((sin g * sin g + cos g * cos g) * (x ^ 2 + y ^ 2) + r ^ 2);
      [rewrite Hg; ring | ring]. }
  rewrite Ek, Ex, Ey. f_equal. f_equal; ring.
Qed.

Lemma get_point_on_sphere_commutes_with_z_rotation_witness :
  exists P : Point3D,
    get_point_on_sphere (mkPoint 3 4 0) 5 = Ok P /\
    get_point_on_sphere (axis_rotate (mkPoint 3 4 0) (rot_mat 0 0 1)) 5
    = Ok (axis_rotate P (rot_mat 0 0 1)).
Proof.
  apply (get_point_on_sphere_commutes_with_z_rotation 1 3 4 5). lra.
Defined.

(** X25: the comment on the column formula holds.  For r > 0, positive
    dimensions and z >= -r, a point of the half plane y = 0, x > 0 gets the
    centre column round(w_img / 2) mod w_img, and a point of the half plane
    y = 0, x < 0 gets column 0, the seam of the source image. *)
Theorem get_pix_on_img_centre_and_seam (x z r : R) (h_img w_img : Z) :
  0 < r -> (0 < h_img)%Z -> (0 < w_img)%Z -> - r <= z ->
  (0 < x ->
   exists row, get_pix_on_img (mkPoint x 0 z) r h_img w_img
               = Ok (row, Z.modulo (round (IZR w_img / 2)) w_img)) /\
  (x < 0 ->
   exists row, get_pix_on_img (mkPoint x 0 z) r h_img w_img
               = Ok (row, 0%Z)).
Proof.
  intros Hr Hh Hw Hz.
  pose proof PI_neq0 as Hpi.
  assert (Hq : 0 / x = 0) by (unfold Rdiv; ring).
  split; intros Hx;
    rewrite get_pix_on_img_row by (simpl; assumption);
    eexists; f_equal; f_equal; unfold spec_col, arctan2; simpl.
  - destruct (Rlt_dec 0 x) as [_ | N]; [| contradiction].
    rewrite Hq, atan_0. f_equal. f_equal. field. exact Hpi.
  - destruct (Rlt_dec 0 x) as [N | _]; [lra |].
    destruct (Rlt_dec x 0) as [_ | N]; [| contradiction].
    destruct (Rle_dec 0 0) as [_ | N]; [| lra].
    rewrite Hq, atan_0.
    replace ((0 + PI) / (2 * PI) + 1 / 2) with 1 by (field; exact Hpi).
    rewrite Rmult_1_l, round_IZR. apply Z_mod_same_full.
Qed.

End Compiled.

(** * The properties at concrete inputs

    The parameter is set to the value x86-64 gives. *)

Lemma get_pix_on_img_formula_witness :
  get_pix_on_img int64_min (mkPoint 1 2 3) 5 4 6
    = spec_mapper int64_min (mkPoint 1 2 3) 5 4 6 /\
  get_pix_on_img int64_min (mkPoint 1 2 5) 5 4 6 = Ok (0%Z, spec_col 1 2 6) /\
  (acos (- (5) / 5) / PI = 1 /\
   Z.modulo (round (1 * IZR 4)) 4 = 0%Z /\
   get_pix_on_img int64_min (mkPoint 1 2 (- (5))) 5 4 6
     = Ok (0%Z, spec_col 1 2 6)).
Proof.
  apply (get_pix_on_img_formula int64_min
           1 2 3 5 4 6); [lra | lia | lia].
Defined.

Lemma projection_is_composition_witness :
  projection int64_min (2 / 5) 0 identity (7, 9)%Z 45 300 400 300 400 =
  (let* P := get_point_on_sphere
               (mkPoint (IZR 7 + (2 / 5 - 1 / 2) * IZR 300)
                        (IZR 9 + (0 - 1 / 2) * IZR 400) 0) 45 in
   get_pix_on_img int64_min (axis_rotate P identity) 45 300 400) /\
  projection int64_min (2 / 5) 0 identity (7, 9)%Z 45 300 400 300 400 =
  get_pix_on_img int64_min
    (axis_rotate
       (mkPoint (k_coeff (IZR 7 + (2 / 5 - 1 / 2) * IZR 300)
                         (IZR 9 + (0 - 1 / 2) * IZR 400) 45
                 * (IZR 7 + (2 / 5 - 1 / 2) * IZR 300))
                (k_coeff (IZR 7 + (2 / 5 - 1 / 2) * IZR 300)
                         (IZR 9 + (0 - 1 / 2) * IZR 400) 45
                 * (IZR 9 + (0 - 1 / 2) * IZR 400))
                ((k_coeff (IZR 7 + (2 / 5 - 1 / 2) * IZR 300)
                          (IZR 9 + (0 - 1 / 2) * IZR 400) 45 - 1) * 45))
       identity)
    45 300 400.
Proof.
  apply (projection_is_composition int64_min
           (2 / 5) 0 identity 7 9 45 300 400 300 400).
  lra.
Defined.

Lemma run_samples_every_pixel_once_witness :
  NoDup (ndindex (Z.to_nat (out_height default_config 2))
                 (Z.to_nat (out_width default_config 2))) /\
  (forall i j : Z,
     In (i, j) (ndindex (Z.to_nat (out_height default_config 2))
                        (Z.to_nat (out_width default_config 2))) <->
     (0 <= i < out_height default_config 2)%Z /\
     (0 <= j < out_width default_config 2)%Z) /\
  exists blank out : Image,
    zeros (out_height default_config 2) (out_width default_config 2)
    = Ok blank /\
    run int64_min default_config tiny_img =
    sample_loop int64_min (offset_ver default_config)
      (offset_hor default_config)
                (rot_mat (alpha default_config) (beta default_config)
                         (gamma default_config))
                tiny_img
                (radius default_config (out_height default_config 2)
                        (out_width default_config 2))
                2 2 (out_height default_config 2) (out_width default_config 2)
                (ndindex (Z.to_nat (out_height default_config 2))
                         (Z.to_nat (out_width default_config 2)))
                blank /\
    run int64_min default_config tiny_img = Ok out /\
    rectangular out (Z.to_nat (out_height default_config 2))
                (Z.to_nat (out_width default_config 2)) /\
    (forall p : Z * Z,
       In p (ndindex (Z.to_nat (out_height default_config 2))
                     (Z.to_nat (out_width default_config 2))) ->
       exists pix : Z * Z,
         projection int64_min (offset_ver default_config)
           (offset_hor default_config)
                    (rot_mat (alpha default_config) (beta default_config)
                             (gamma default_config))
                    p
                    (radius default_config (out_height default_config 2)
                            (out_width default_config 2))
                    2 2 (out_height default_config 2)
                    (out_width default_config 2) = Ok pix /\
         img_get out p = img_get tiny_img pix /\
         exists c : RGB, img_get out p = Ok c) /\
    (forall out' : Image, run int64_min default_config tiny_img
      = Ok out' -> out' = out).
Proof.
  apply (run_samples_every_pixel_once int64_min default_config tiny_img 2 2).
  - split; [reflexivity | repeat constructor].
  - lia.
  - lia.
  - change (0 < 15 / 10). lra.
  - reflexivity.
  - reflexivity.
Defined.

Lemma projection_row_ignores_gamma_witness :
  exists row col col' : Z,
    projection int64_min (2 / 5) 0 (rot_mat 1 2 3) (7, 9)%Z 45 300 400 300 400
    = Ok (row, col) /\
    projection int64_min (2 / 5) 0 (rot_mat 1 2 4) (7, 9)%Z 45 300 400 300 400
    = Ok (row, col').
Proof.
  apply (projection_row_ignores_gamma int64_min (2 / 5) 0 1 2 3 4 (7, 9)%Z
           45 300 400 300 400); [lra | lia | lia].
Defined.

Lemma get_pix_on_img_clamps_to_row_0_witness :
  get_pix_on_img int64_min (mkPoint 1 2 8) 5 4 6 = Ok (0%Z, spec_col 1 2 6).
Proof.
  apply (get_pix_on_img_clamps_to_row_0 int64_min
           1 2 8 5 4 6); [lra | lia | lia | lra].
Defined.

Lemma get_pix_on_img_nan_iff_witness :
  (arccos ((if Rlt_dec 5 (pz (mkPoint 1 2 (-7))) then 5
            else pz (mkPoint 1 2 (-7))) / 5) = NaN <->
   pz (mkPoint 1 2 (-7)) < - (5)) /\
  (pz (mkPoint 1 2 (-7)) < - (5) ->
   get_pix_on_img int64_min (mkPoint 1 2 (-7)) 5 4 6
   = Ok (Z.modulo int64_min 4, spec_col (px (mkPoint 1 2 (-7)))
                                         (py (mkPoint 1 2 (-7))) 6)) /\
  (exists pix, get_pix_on_img int64_min (mkPoint 1 2 (-7)) 5 4 6 = Ok pix /\
               in_bounds pix 4 6).
Proof.
  apply (get_pix_on_img_nan_iff int64_min
           (mkPoint 1 2 (-7)) 5 4 6); [lra | lia | lia].
Defined.

Lemma get_pix_on_img_homogeneous_witness :
  get_pix_on_img int64_min (scale_point 2 (mkPoint 1 2 3)) (2 * 5) 4 6
  = get_pix_on_img int64_min (mkPoint 1 2 3) 5 4 6.
Proof.
  apply (get_pix_on_img_homogeneous int64_min
           2 (mkPoint 1 2 3) 5 4 6). lra.
Defined.

Lemma get_pix_on_img_wraps_top_only_witness :
  let R0 := round (acos ((if Rlt_dec 5 3 then 5 else 3) / 5) / PI * IZR 4) in
  let C0 := round ((arctan2 2 1 / 2 / PI + 1 / 2) * IZR 6) in
  (0 <= R0 <= 4)%Z /\ (0 <= C0 <= 6)%Z /\
  get_pix_on_img int64_min (mkPoint 1 2 3) 5 4 6
  = Ok (if Z.eqb R0 4 then 0%Z else R0, if Z.eqb C0 6 then 0%Z else C0).
Proof.
  apply (get_pix_on_img_wraps_top_only int64_min
           1 2 3 5 4 6); [lra | lia | lia | lra].
Defined.

Lemma projection_offset_pans_witness :
  projection int64_min (2 / 5 + 1 / IZR 300) 0
    identity (7, 9)%Z 45 300 400 300 400
  = projection int64_min (2 / 5) 0 identity (7 + 1, 9)%Z 45 300 400 300 400 /\
  projection int64_min (2 / 5) (0 + 1 / IZR 400)
    identity (7, 9)%Z 45 300 400 300 400
  = projection int64_min (2 / 5) 0 identity (7, 9 + 1)%Z 45 300 400 300 400.
Proof.
  apply (projection_offset_pans int64_min
           (2 / 5) 0 identity 7 9 45 300 400 300 400);
    lia.
Defined.

Lemma sample_loop_order_irrelevant_witness :
  exists out,
    sample_loop int64_min 0 0 (rot_mat 1 2 3) tiny_img 5
                (Z.of_nat 2) (Z.of_nat 2) 1 2
                (ndindex 1 2) [[mkRGB 0 0 0; mkRGB 0 0 0]] = Ok out /\
    sample_loop int64_min 0 0 (rot_mat 1 2 3) tiny_img 5
                (Z.of_nat 2) (Z.of_nat 2) 1 2
                [(0, 1)%Z; (0, 0)%Z] [[mkRGB 0 0 0; mkRGB 0 0 0]] = Ok out.
Proof.
  apply (sample_loop_order_irrelevant int64_min
           0 0 1 2 3 5 tiny_img 2 2 1 2 1 2).
  - lra.
  - split; [reflexivity | repeat constructor].
  - lia.
  - lia.
  - split; [reflexivity | repeat constructor].
  - repeat constructor; simpl; intuition congruence.
  - intros [i j]. unfold in_bounds; simpl. split.
    + intros [E | [E | []]]; injection E as <- <-; lia.
    + intros [Hi Hj].
      assert (i = 0%Z) by lia. assert (j = 0%Z \/ j = 1%Z) by lia.
      subst i. destruct H0 as [-> | ->]; auto.
Defined.

Lemma sample_loop_overwrites_everything_witness :
  exists out,
    sample_loop int64_min 0 0 (rot_mat 1 2 3) tiny_img 5
                (Z.of_nat 2) (Z.of_nat 2) 1 2
                (ndindex 1 2) [[mkRGB 0 0 0; mkRGB 0 0 0]] = Ok out /\
    sample_loop int64_min 0 0 (rot_mat 1 2 3) tiny_img 5
                (Z.of_nat 2) (Z.of_nat 2) 1 2
                (ndindex 1 2) [[mkRGB 7 7 7; mkRGB 8 8 8]] = Ok out.
Proof.
  apply (sample_loop_overwrites_everything int64_min
           0 0 1 2 3 5 tiny_img 2 2 1 2 1 2).
  - lra.
  - split; [reflexivity | repeat constructor].
  - lia.
  - lia.
  - split; [reflexivity | repeat constructor].
  - split; [reflexivity | repeat constructor].
Defined.

Lemma run_negative_size_fails_witness :
  run int64_min (mkConfig 0 0 1 0 0 0 false 400 (-3)) tiny_img = Err ValueError.
Proof.
  apply (run_negative_size_fails int64_min
           (mkConfig 0 0 1 0 0 0 false 400 (-3))).
  - reflexivity.
  - left. simpl. lia.
Defined.

Lemma run_zero_scale_fails_witness :
  run int64_min (mkConfig 0 0 0 0 0 0 true 400 300) tiny_img
    = Err ZeroDivisionError.
Proof.
  apply (run_zero_scale_fails int64_min
           (mkConfig 0 0 0 0 0 0 true 400 300) tiny_img);
    reflexivity.
Defined.

Lemma run_empty_output_witness :
  run int64_min (mkConfig 0 0 0 0 0 0 false 0 300) tiny_img
  = Ok (repeat (repeat (mkRGB 0 0 0) (Z.to_nat 0)) (Z.to_nat 300)).
Proof.
  apply (run_empty_output int64_min
           (mkConfig 0 0 0 0 0 0 false 0 300) tiny_img).
  - cbv. discriminate.
  - cbv. discriminate.
  - right. reflexivity.
Defined.

Lemma get_pix_on_img_negative_radius_witness :
  get_pix_on_img int64_min (mkPoint 3 4 (-5)) (-2) 4 6
  = Ok (if Rle_dec (-2) (-5) then 0%Z else Z.modulo int64_min 4,
        spec_col 3 4 6).
Proof.
  apply (get_pix_on_img_negative_radius int64_min
           3 4 (-5) (-2) 4 6); [lra | lia | lia].
Defined.

Lemma get_pix_on_img_centre_and_seam_witness :
  (0 < 1 ->
   exists row, get_pix_on_img int64_min (mkPoint 1 0 3) 5 4 6
               = Ok (row, Z.modulo (round (IZR 6 / 2)) 6)) /\
  (1 < 0 ->
   exists row, get_pix_on_img int64_min (mkPoint 1 0 3) 5 4 6 = Ok (row, 0%Z)).
Proof.
  apply (get_pix_on_img_centre_and_seam int64_min
           1 3 5 4 6); [lra | lia | lia | lra].
Defined.
